(** * deno-lib-console-cli: a shallow embedding of [mod.ts]

    The argument-consumption and dispatch engine of the library
    ([process], [processOptions], the three [Option] classes, [ValueCommand],
    the built-in [helpFlag] and [helpCmd]) is translated into Rocq functions
    over an explicit world state: the shared token array, the shared value
    store, the lines written to the output streams and the suspended
    continuations of [async] callbacks.  [Deno.exit] and thrown exceptions are
    outcomes of their own, so that "returns normally" and "terminates the
    process" are distinguished the way the runtime distinguishes them. *)

From stdpp Require Import base strings gmap list.
From Stdlib Require Import ZArith Lia Ascii.

Local Open Scope Z_scope.
Set Warnings "-register-all".

(** ** The string and array built-ins of JavaScript that [mod.ts] calls *)

Module JS.

(** [s.startsWith(p)] *)
Fixpoint startsWith (s p : string) {struct p} : bool :=
  match p with
  | EmptyString => true
  | String c p' =>
      match s with
      | EmptyString => false
      | String d s' => if Ascii.eqb d c then startsWith s' p' else false
      end
  end.

(** the characters of [s] from position [n] on, and the first [n] ones *)
Fixpoint drop (n : nat) (s : string) : string :=
  match n, s with
  | O, _ => s
  | S _, EmptyString => EmptyString
  | S n', String _ s' => drop n' s'
  end.

Fixpoint take (n : nat) (s : string) : string :=
  match n, s with
  | O, _ => EmptyString
  | S _, EmptyString => EmptyString
  | S n', String c s' => String c (take n' s')
  end.

Definition len (s : string) : Z := Z.of_nat (String.length s).

(** an index argument of [substring] is clamped to [0 .. s.length] *)
Definition clamp (s : string) (i : Z) : Z := Z.min (Z.max i 0) (len s).

(** [s.substring(start)] is [substring s start None];
    [s.substring(start, end)] is [substring s start (Some end)]:
    both indices are clamped, and swapped when [start > end]. *)
Definition substring (s : string) (start : Z) (end_ : option Z) : string :=
  let a := clamp s start in
  let b := match end_ with None => len s | Some e => clamp s e end in
  let lo := Z.min a b in
  let hi := Z.max a b in
  take (Z.to_nat (hi - lo)) (drop (Z.to_nat lo) s).

(** [s.indexOf(needle)]: the first position where [needle] occurs, or -1 *)
Fixpoint indexOf_from (s needle : string) (i : Z) : Z :=
  if startsWith s needle then i
  else match s with
       | EmptyString => -1
       | String _ s' => indexOf_from s' needle (i + 1)
       end.

Definition indexOf (s needle : string) : Z := indexOf_from s needle 0.

(** [arr.join(sep)]; [`${arr}`] is [arr.join(",")] *)
Fixpoint join (sep : string) (arr : list string) : string :=
  match arr with
  | [] => ""
  | [x] => x
  | x :: rest => x +:+ sep +:+ join sep rest
  end.

(** The callbacks handed to [some] and [find] may raise a [TypeError]
    (reading a property of [undefined]); [res] records it. *)
Inductive res (A : Type) : Type :=
| Ok (a : A)
| TypeError.
Arguments Ok {A} a.
Arguments TypeError {A}.

(** [arr.some(p)] *)
Fixpoint some {A : Type} (p : A -> res bool) (arr : list A) : res bool :=
  match arr with
  | [] => Ok false
  | x :: rest =>
      match p x with
      | TypeError => TypeError
      | Ok true => Ok true
      | Ok false => some p rest
      end
  end.

(** [arr.find(p)]; [None] is [undefined] *)
Fixpoint find {A : Type} (p : A -> res bool) (arr : list A) : res (option A) :=
  match arr with
  | [] => Ok None
  | x :: rest =>
      match p x with
      | TypeError => TypeError
      | Ok true => Ok (Some x)
      | Ok false => find p rest
      end
  end.

(** [`${x}`] for a value that may be [undefined] *)
Definition template (x : option string) : string :=
  match x with
  | Some s => s
  | None => "undefined"
  end.

End JS.

(** ** [dropWhile] (mod.ts, lines 93-105) *)

(** The [while] loop of [dropWhile]: [index] advances while it is below
    [s.length] and [p] accepts the one-character string at [index].  The loop
    runs at most [s.length] times, which is the fuel [dropWhile] gives it. *)
Fixpoint dropWhile_loop (fuel : nat) (s : string) (p : string -> bool) (index : Z) : Z :=
  match fuel with
  | O => index
  | S fuel' =>
      if index <? JS.len s then
        if p (JS.substring s index (Some (index + 1)))
        then dropWhile_loop fuel' s p (index + 1)
        else index
      else index
  end.

Definition dropWhile (s : string) (p : string -> bool) : string :=
  let index := dropWhile_loop (String.length s) s p 0 in
  if index =? 0 then s else JS.substring s index None.

(** the predicate [(c) => c == "-"] *)
Definition isDash (c : string) : bool := String.eqb c "-".

(** ** Documentation trees

    The pretty-printing library is an external collaborator: the engine only
    builds a tree out of its combinators and hands it to [render].  The
    combinators are kept as the constructors of a free tree. *)

Module PP.

Inductive Doc : Type :=
| empty
| text (s : string)
| vcat (ds : list Doc)
| hcat (ds : list Doc)
| nest (n : Z) (d : Doc)
| p (a b : Doc)      (* [a.p(b)] *)
| pp (a b : Doc).    (* [a.pp(b)] *)

End PP.

(** ** The world the engine runs in *)

(** what the engine itself stores: [true] for a flag, a string for a value *)
Inductive value : Type :=
| VBool (b : bool)
| VString (s : string).

Inductive stream : Type := Stdout | Stderr.

(** [console.log(line)] writes one line to standard output;
    [render(doc, Deno.stdout)] starts writing a document to a stream. *)
Inductive event : Type :=
| ConsoleLog (line : string)
| Render (d : PP.Doc) (to : stream).

Definition stream_of (e : event) : stream :=
  match e with
  | ConsoleLog _ => Stdout
  | Render _ to => to
  end.

(** The rest of an [async] callback after its first [await].  It is queued and
    runs only once the synchronous call stack has unwound; nothing in
    [mod.ts] awaits it. *)
Inductive continuation : Type :=
| ExitAfterAwait (code : Z)        (* [Deno.exit(code)] after an [await] *)
| HostContinuation (id : nat).     (* the rest of a callback of the host *)

Record world : Type := World {
  args : list string;              (* the token array, shared by reference *)
  values : gmap string value;      (* the [Map] of recognised options *)
  output : list event;             (* what has been written, oldest first *)
  pending : list continuation      (* suspended continuations *)
}.

Definition set_args (a : list string) (w : world) : world :=
  World a (values w) (output w) (pending w).

Definition set_value (k : string) (v : value) (w : world) : world :=
  World (args w) (<[k := v]> (values w)) (output w) (pending w).

Definition emit (e : event) (w : world) : world :=
  World (args w) (values w) (output w ++ [e]) (pending w).

Definition suspend (k : continuation) (w : world) : world :=
  World (args w) (values w) (output w) (pending w ++ [k]).

(** [args.splice(0, 1)] *)
Definition splice01 (w : world) : world := set_args (tail (args w)) w.

(** How a call ends: it returns, the process is gone ([Deno.exit]), or an
    exception propagates. *)
Inductive outcome : Type :=
| Normal (w : world)
| Exited (code : Z) (w : world)
| Thrown (w : world).

(** sequencing: the second call happens only if the first one returns *)
Definition andThen (o : outcome) (k : world -> outcome) : outcome :=
  match o with
  | Normal w => k w
  | Exited c w => Exited c w
  | Thrown w => Thrown w
  end.

(** ** The declarative tree: options, commands, the CLI definition *)

Section Engine.

(** The callbacks a host program puts into its [DoOption]s and
    [ValueCommand]s are values of two types of the host's choosing. *)
Variables OptCallback CmdCallback : Type.

(** the [action] of a [DoOption]: the one of the built-in [helpFlag], or a
    callback of the host *)
Inductive OptAction : Type :=
| HelpFlagAction
| HostOptAction (f : OptCallback).

(** the subclasses of the abstract class [Option] *)
Inductive Option : Type :=
| ValueOption (tags : list string) (help : string)
| FlagOption (tags : list string) (help : string)
| DoOption (tags : list string) (help : string) (action : OptAction).

Record ShowValue : Type := {
  sv_name : string;
  sv_optional : bool;
  sv_help : string
}.

(** the [action] of a [ValueCommand]: the one of the built-in [helpCmd], or
    a callback of the host *)
Inductive CmdAction : Type :=
| HelpCmdAction
| HostCmdAction (f : CmdCallback).

(** [ValueCommand] is the only subclass of the abstract class [Command] *)
Record Command : Type := ValueCommand {
  cmd_name : string;
  cmd_help : string;
  cmd_options : list Option;
  cmd_showValue : ShowValue;
  cmd_action : CmdAction
}.

Record Definition_ : Type := {
  cli_name : string;
  cli_help : string;
  cli_options : list Option;
  cli_cmds : list Command
}.

(** What a callback of the host does when it is called: its synchronous
    effect on the world.  A callback of a [DoOption] receives the token
    array and the value store themselves, a callback of a [ValueCommand]
    the value ([None] is [undefined]) and the value store. *)
Variable runOpt : OptCallback -> Definition_ -> world -> outcome.
Variable runCmd : CmdCallback -> Definition_ -> option string -> world -> outcome.

(** [punctuate] of the pretty-printing library *)
Variable punctuate : PP.Doc -> list PP.Doc -> list PP.Doc.

(** *** [show] of the three option classes (lines 62-69, 120-125, 166-171) *)
Definition Option_show (o : Option) : PP.Doc :=
  match o with
  | ValueOption tags help =>
      PP.vcat
        [ PP.hcat
            (punctuate (PP.text ", ")
               (map (fun t => PP.p (PP.text t) (PP.text "=Value")) tags));
          PP.nest 4 (PP.text help) ]
  | FlagOption tags help
  | DoOption tags help _ =>
      PP.vcat
        [ PP.hcat (punctuate (PP.text ", ") (map PP.text tags));
          PP.nest 4 (PP.text help) ]
  end.

(** *** [show(cli)] (lines 193-229): the document, and the call of [render] *)
Definition show_doc (cli : Definition_) : PP.Doc :=
  PP.vcat
    [ PP.text (cli_help cli);
      PP.text "";
      PP.text "USAGE:";
      PP.nest 4
        (PP.pp
           (PP.pp (PP.text (cli_name cli))
              (if (Z.of_nat (length (cli_options cli)) =? 0)
               then PP.empty else PP.text "{OPTION}"))
           (if (Z.of_nat (length (cli_cmds cli)) =? 0)
            then PP.empty else PP.text "[COMMAND]"));
      (if (Z.of_nat (length (cli_options cli)) =? 0) then PP.empty
       else PP.vcat
              [ PP.text "";
                PP.text "OPTION:";
                PP.nest 4 (PP.vcat (map Option_show (cli_options cli))) ]);
      (if (Z.of_nat (length (cli_cmds cli)) =? 0) then PP.empty
       else PP.vcat
              [ PP.text "";
                PP.text "COMMAND:";
                PP.nest 4
                  (PP.vcat
                     (map (fun cmd =>
                             PP.p (PP.text (cmd_name cmd))
                               (PP.nest 20 (PP.text (cmd_help cmd))))
                        (cli_cmds cli))) ]) ].

Definition show (cli : Definition_) (w : world) : world :=
  emit (Render (show_doc cli) Stdout) w.

(** *** [ValueCommand.show] (lines 338-362) *)
Definition Command_show (c : Command) : PP.Doc :=
  let usageName :=
    if sv_optional (cmd_showValue c)
    then "[" +:+ sv_name (cmd_showValue c) +:+ "]"
    else sv_name (cmd_showValue c) in
  PP.vcat
    [ PP.text "USAGE:";
      PP.nest 4
        (PP.pp
           (PP.pp (PP.text (cmd_name c))
              (if (Z.of_nat (length (cmd_options c)) =? 0)
               then PP.empty else PP.text "{OPTION}"))
           (PP.text usageName));
      (if (Z.of_nat (length (cmd_options c)) =? 0) then PP.empty
       else PP.vcat
              [ PP.text "";
                PP.text "OPTION:";
                PP.nest 4 (PP.vcat (map Option_show (cmd_options c))) ]);
      PP.text "";
      PP.text (sv_name (cmd_showValue c));
      PP.nest 4 (PP.text (sv_help (cmd_showValue c))) ].

(** *** [reportErrorAndTerminate] (lines 188-191) *)
Definition reportErrorAndTerminate (errorMsg : string) (cli : Definition_)
    (w : world) : outcome :=
  Exited (-1) (emit (ConsoleLog ("Error: " +:+ errorMsg)) w).

(** *** [canDo] of the three option classes (lines 71-73, 127-129, 173-175)

    [args[0]] is [head args]: [undefined] on an empty array, where
    [args[0].startsWith] raises a [TypeError] and [t == args[0]] is false. *)
Definition Option_canDo (o : Option) (args : list string) : JS.res bool :=
  match o with
  | ValueOption tags _ =>
      JS.some
        (fun t =>
           match head args with
           | None => JS.TypeError
           | Some a0 => JS.Ok (JS.startsWith a0 (t +:+ "="))
           end)
        tags
  | FlagOption tags _
  | DoOption tags _ _ =>
      JS.some
        (fun t =>
           JS.Ok (match head args with
                  | None => false
                  | Some a0 => String.eqb t a0
                  end))
        tags
  end.

(** the [action] of [helpFlag] (lines 234-237): [show(cli)] is called, the
    [await] suspends the callback, and [Deno.exit(0)] is what remains *)
Definition helpFlag_action (cli : Definition_) (w : world) : outcome :=
  Normal (suspend (ExitAfterAwait 0) (show cli w)).

Definition OptAction_call (a : OptAction) (cli : Definition_) (w : world) : outcome :=
  match a with
  | HelpFlagAction => helpFlag_action cli w
  | HostOptAction f => runOpt f cli w
  end.

(** *** [doNow] of the three option classes (lines 75-90, 131-139, 177-185)

    [this.tags[0]] is [undefined] when no tag is declared, and [dropWhile]
    then raises a [TypeError] at [s.length]; so does [value.indexOf] when
    the token array is empty. *)
Definition Option_doNow (o : Option) (cli : Definition_) (w : world) : outcome :=
  match o with
  | ValueOption tags _ =>
      match head (args w) with
      | None => Thrown w
      | Some value =>
          let indexOfEqual := JS.indexOf value "=" in
          match head tags with
          | None => Thrown w
          | Some tag0 =>
              Normal
                (splice01
                   (set_value (dropWhile tag0 isDash)
                      (VString (JS.substring value (indexOfEqual + 1) None))
                      w))
          end
      end
  | FlagOption tags _ =>
      let w1 := splice01 w in
      match head tags with
      | None => Thrown w1
      | Some tag0 => Normal (set_value (dropWhile tag0 isDash) (VBool true) w1)
      end
  | DoOption _ _ action =>
      OptAction_call action cli (splice01 w)
  end.

(** *** [processOptions] (lines 268-288) *)

(** the loop condition [args.length > 0 && args[0].startsWith("-")] *)
Definition processOptions_cond (w : world) : bool :=
  match args w with
  | [] => false
  | a0 :: _ => JS.startsWith a0 "-"
  end.

(** how one run of the loop body ends *)
Inductive iteration : Type :=
| Break (w : world)        (* [break]: the terminator was consumed *)
| Continue (w : world)     (* back to the loop condition *)
| Leave (o : outcome).     (* the process exited or an exception escapes *)

Definition processOptions_body (cli : Definition_) (options : list Option)
    (w : world) : iteration :=
  if match head (args w) with
     | None => false
     | Some a0 => String.eqb a0 "--"
     end
  then Break (splice01 w)
  else
    match JS.find (fun o => Option_canDo o (args w)) options with
    | JS.TypeError => Leave (Thrown w)
    | JS.Ok None =>
        match reportErrorAndTerminate
                ("Invalid option " +:+ JS.template (head (args w))) cli w with
        | Normal w' => Continue w'
        | o => Leave o
        end
    | JS.Ok (Some option) =>
        match Option_doNow option cli w with
        | Normal w' => Continue w'
        | o => Leave o
        end
    end.

(** The loop: [None] when [fuel] iterations were not enough. *)
Fixpoint processOptions (fuel : nat) (cli : Definition_) (options : list Option)
    (w : world) : option outcome :=
  match fuel with
  | O => None
  | S fuel' =>
      if processOptions_cond w then
        match processOptions_body cli options w with
        | Break w' => Some (Normal w')
        | Continue w' => processOptions fuel' cli options w'
        | Leave o => Some o
        end
      else Some (Normal w)
  end.

(** *** [ValueCommand] (lines 314-336) *)
Definition Command_canDo (c : Command) (args : list string) : bool :=
  (0 <? Z.of_nat (length args)) &&
  match head args with
  | None => false
  | Some a0 => String.eqb a0 (cmd_name c)
  end.

(** the [action] of [helpCmd] (lines 374-390) *)
Definition helpCmd_action (cli : Definition_) (value : option string)
    (w : world) : outcome :=
  match value with
  | None => Normal (show cli w)
  | Some v =>
      match JS.find (fun c => JS.Ok (String.eqb (cmd_name c) v)) (cli_cmds cli) with
      | JS.TypeError => Thrown w
      | JS.Ok None => reportErrorAndTerminate ("Unknown command " +:+ v) cli w
      | JS.Ok (Some cmd) => Normal (emit (Render (Command_show cmd) Stdout) w)
      end
  end.

Definition CmdAction_call (a : CmdAction) (cli : Definition_)
    (value : option string) (w : world) : outcome :=
  match a with
  | HelpCmdAction => helpCmd_action cli value w
  | HostCmdAction f => runCmd f cli value w
  end.

(** what [ValueCommand.doNow] does once its own options are processed *)
Definition Command_afterOptions (c : Command) (cli : Definition_) (w : world) : outcome :=
  match args w with
  | [] =>
      if sv_optional (cmd_showValue c)
      then CmdAction_call (cmd_action c) cli None w
      else reportErrorAndTerminate
             (sv_name (cmd_showValue c) +:+ " requires a value") cli w
  | [a0] => CmdAction_call (cmd_action c) cli (Some a0) w
  | _ =>
      reportErrorAndTerminate
        ("Too many arguments " +:+ JS.join "," (args w)) cli w
  end.

Definition Command_doNow (fuel : nat) (c : Command) (cli : Definition_)
    (w : world) : option outcome :=
  match processOptions fuel cli (cmd_options c) w with
  | None => None
  | Some o => Some (andThen o (Command_afterOptions c cli))
  end.

(** *** [process] (lines 19-37) *)

(** what [process] does once the global options are processed *)
Definition dispatch (fuel : nat) (cli : Definition_) (w : world) : option outcome :=
  match args w with
  | [] =>
      Some (reportErrorAndTerminate "Invalid arguments - no command specified" cli w)
  | _ =>
      match JS.find (fun c => JS.Ok (Command_canDo c (args w))) (cli_cmds cli) with
      | JS.TypeError => Some (Thrown w)
      | JS.Ok None =>
          Some (reportErrorAndTerminate
                  ("Invalid command " +:+ JS.template (head (args w))) cli w)
      | JS.Ok (Some cmd) => Command_doNow fuel cmd cli (splice01 w)
      end
  end.

(** [Deno_args] is [Deno.args]; the store and the token array are fresh *)
Definition process (fuel : nat) (cli : Definition_) (Deno_args : list string)
    : option outcome :=
  let w0 := World Deno_args ∅ [] [] in
  match processOptions fuel cli (cli_options cli) w0 with
  | None => None
  | Some (Normal w1) => dispatch fuel cli w1
  | Some o => Some o
  end.

(** *** The built-in elements (lines 231-238, 365-391) *)
Definition helpFlag : Option :=
  DoOption ["-h"; "--help"] "Prints help information" HelpFlagAction.

Definition helpCmd : Command :=
  ValueCommand "help" "Provides detail help on a specific command" []
    {| sv_name := "CmdName";
       sv_optional := true;
       sv_help := "The name of the command that more help detail is to be shown." |}
    HelpCmdAction.

(** *** Notions the statements below are phrased with *)

(** [reaches cli options w w']: the loop of [processOptions], started in
    [w], is back at its condition in [w'] after zero or more iterations *)
Inductive reaches (cli : Definition_) (options : list Option) : world -> world -> Prop :=
| reaches_here (w : world) : reaches cli options w w
| reaches_next (w w1 w2 : world) :
    processOptions_cond w = true ->
    processOptions_body cli options w = Continue w1 ->
    reaches cli options w1 w2 ->
    reaches cli options w w2.

(** a callback of the host that never leaves the token array longer than
    it found it *)
Definition tame (o : Option) : Prop :=
  match o with
  | DoOption _ _ (HostOptAction f) =>
      forall (cli : Definition_) (w w' : world),
        runOpt f cli w = Normal w' -> (length (args w') <= length (args w))%nat
  | _ => True
  end.

(** the fatal errors and their messages *)
Inductive fatal : Type :=
| NoCommandSpecified
| UnknownCommand (token : string)
| UnknownOption (token : string)
| MissingRequiredValue (name : string)
| TooManyArguments (tokens : list string)
| UnknownHelpTarget (value : string).

Definition message (e : fatal) : string :=
  match e with
  | NoCommandSpecified => "Invalid arguments - no command specified"
  | UnknownCommand token => "Invalid command " +:+ token
  | UnknownOption token => "Invalid option " +:+ token
  | MissingRequiredValue name => name +:+ " requires a value"
  | TooManyArguments tokens => "Too many arguments " +:+ JS.join "," tokens
  | UnknownHelpTarget value => "Unknown command " +:+ value
  end.

(** one line [Error: <message>] on standard output, then exit with -1 *)
Definition fails (e : fatal) (w : world) : outcome :=
  Exited (-1) (emit (ConsoleLog ("Error: " +:+ message e)) w).

End Engine.

Arguments ValueOption {OptCallback} tags help.
Arguments FlagOption {OptCallback} tags help.
Arguments DoOption {OptCallback} tags help action.
Arguments HelpFlagAction {OptCallback}.
Arguments HostOptAction {OptCallback} f.
Arguments HelpCmdAction {CmdCallback}.
Arguments HostCmdAction {CmdCallback} f.
Arguments helpFlag {OptCallback}.
Arguments helpCmd {OptCallback CmdCallback}.
Arguments Build_ShowValue name optional help : rename.
Arguments ValueCommand {OptCallback CmdCallback} name help options showValue action : rename.
Arguments Build_Definition_ {OptCallback CmdCallback} name help options cmds : rename.
Arguments cmd_name {OptCallback CmdCallback} c.
Arguments cmd_help {OptCallback CmdCallback} c.
Arguments cmd_options {OptCallback CmdCallback} c.
Arguments cmd_showValue {OptCallback CmdCallback} c.
Arguments cmd_action {OptCallback CmdCallback} c.
Arguments cli_name {OptCallback CmdCallback} d.
Arguments cli_help {OptCallback CmdCallback} d.
Arguments cli_options {OptCallback CmdCallback} d.
Arguments cli_cmds {OptCallback CmdCallback} d.
Arguments Option_show {OptCallback} punctuate o.
Arguments show_doc {OptCallback CmdCallback} punctuate cli.
Arguments show {OptCallback CmdCallback} punctuate cli w.
Arguments Command_show {OptCallback CmdCallback} punctuate c.
Arguments reportErrorAndTerminate {OptCallback CmdCallback} errorMsg cli w.
Arguments Option_canDo {OptCallback} o args.
Arguments helpFlag_action {OptCallback CmdCallback} punctuate cli w.
Arguments OptAction_call {OptCallback CmdCallback} runOpt punctuate a cli w.
Arguments Option_doNow {OptCallback CmdCallback} runOpt punctuate o cli w.
Arguments processOptions_body {OptCallback CmdCallback} runOpt punctuate cli options w.
Arguments processOptions {OptCallback CmdCallback} runOpt punctuate fuel cli options w.
Arguments Command_canDo {OptCallback CmdCallback} c args.
Arguments helpCmd_action {OptCallback CmdCallback} punctuate cli value w.
Arguments CmdAction_call {OptCallback CmdCallback} runCmd punctuate a cli value w.
Arguments Command_afterOptions {OptCallback CmdCallback} runCmd punctuate c cli w.
Arguments Command_doNow {OptCallback CmdCallback} runOpt runCmd punctuate fuel c cli w.
Arguments dispatch {OptCallback CmdCallback} runOpt runCmd punctuate fuel cli w.
Arguments process {OptCallback CmdCallback} runOpt runCmd punctuate fuel cli Deno_args.
Arguments reaches {OptCallback CmdCallback} runOpt punctuate cli options _ _.
Arguments tame {OptCallback CmdCallback} runOpt o.

(** ** A sample host program, to run the engine on *)

(** callbacks of [DoOption]s: [args.unshift(token)], and one that does nothing *)
Inductive SampleOpt : Type :=
| Unshift (token : string)
| Nop.

(** the callback of a [ValueCommand]: [console.log(value)] *)
Inductive SampleCmd : Type :=
| Echo.

Definition sample_runOpt (f : SampleOpt) (cli : Definition_ SampleOpt SampleCmd)
    (w : world) : outcome :=
  match f with
  | Unshift token => Normal (set_args (token :: args w) w)
  | Nop => Normal w
  end.

Definition sample_runCmd (f : SampleCmd) (cli : Definition_ SampleOpt SampleCmd)
    (value : option string) (w : world) : outcome :=
  match f with
  | Echo => Normal (emit (ConsoleLog (JS.template value)) w)
  end.

(** a [punctuate] that puts the separator behind every document but the last *)
Fixpoint sample_punctuate (sep : PP.Doc) (ds : list PP.Doc) : list PP.Doc :=
  match ds with
  | [] => []
  | [d] => [d]
  | d :: rest => PP.p d sep :: sample_punctuate sep rest
  end.

Definition sample_cli : Definition_ SampleOpt SampleCmd :=
  Build_Definition_ "sample" "A sample program"
    [ helpFlag;
      FlagOption ["-x"; "--extra"] "Extra output";
      ValueOption ["--foo"] "The foo";
      DoOption ["-r"] "Reads the token again" (HostOptAction (Unshift "-r")) ]
    [ helpCmd;
      ValueCommand "run" "Runs a file" [FlagOption ["-q"] "Quiet"]
        (Build_ShowValue "File" false "The file to run") (HostCmdAction Echo) ].

(** the command [run] of the sample program *)
Definition sample_run : Command SampleOpt SampleCmd :=
  ValueCommand "run" "Runs a file" [FlagOption ["-q"] "Quiet"]
    (Build_ShowValue "File" false "The file to run") (HostCmdAction Echo).

(** the sample program without the callback that puts a token back *)
Definition sample_cli_tame : Definition_ SampleOpt SampleCmd :=
  Build_Definition_ "sample" "A sample program"
    [ helpFlag;
      FlagOption ["-x"; "--extra"] "Extra output";
      ValueOption ["--foo"] "The foo";
      DoOption ["-n"] "Does nothing" (HostOptAction Nop) ]
    [ helpCmd; sample_run ].

(** ** Vocabulary of the statements *)

(** [n] dash characters *)
Fixpoint dashes (n : nat) : string :=
  match n with
  | O => ""
  | S n' => String "-"%char (dashes n')
  end.

(** the character [c] does not occur in [s] *)
Definition lacks (c : Ascii.ascii) (s : string) : Prop :=
  forall a b : string, s <> a +:+ String c b.

(** every character of [s], as a one-character string, satisfies [p] *)
Fixpoint all_chars (p : string -> bool) (s : string) : bool :=
  match s with
  | EmptyString => true
  | String c s' => p (String c "") && all_chars p s'
  end.

(** [s] is empty or starts with a character that [p] rejects *)
Definition stops (p : string -> bool) (s : string) : Prop :=
  match s with
  | EmptyString => True
  | String c _ => p (String c "") = false
  end.

Section Hosts.

Variables OptCallback CmdCallback : Type.
Variable runOpt :
  OptCallback -> Definition_ OptCallback CmdCallback -> world -> outcome.
Variable runCmd :
  CmdCallback -> Definition_ OptCallback CmdCallback -> option string ->
  world -> outcome.

(** an option that carries no callback of the host: a [FlagOption], a
    [ValueOption], or a [DoOption] with the action of the built-in help flag *)
Definition hostless (o : Option OptCallback) : Prop :=
  match o with
  | DoOption _ _ (HostOptAction _) => False
  | _ => True
  end.

(** an option whose callback, if it has one of the host, never throws *)
Definition quiet (o : Option OptCallback) : Prop :=
  match o with
  | DoOption _ _ (HostOptAction f) =>
      forall (cli : Definition_ OptCallback CmdCallback) (w w' : world),
        runOpt f cli w <> Thrown w'
  | _ => True
  end.

(** a command whose options are quiet and whose callback never throws *)
Definition quiet_cmd (c : Command OptCallback CmdCallback) : Prop :=
  Forall quiet (cmd_options c) /\
  match cmd_action c with
  | HostCmdAction f =>
      forall (cli : Definition_ OptCallback CmdCallback) (value : option string)
             (w w' : world),
        runCmd f cli value w <> Thrown w'
  | HelpCmdAction => True
  end.

End Hosts.

Arguments hostless {OptCallback} o.
Arguments quiet {OptCallback CmdCallback} runOpt o.
Arguments quiet_cmd {OptCallback CmdCallback} runOpt runCmd c.

(** * Properties *)

(** ** Facts about the built-ins *)

Section Builtins.

Lemma app_cons (x : Ascii.ascii) (a b : string) :
  String x a +:+ b = String x (a +:+ b).
Proof. reflexivity. Qed.

Lemma app_empty_l (b : string) : "" +:+ b = b.
Proof. reflexivity. Qed.

Lemma app_assoc_string (a b c : string) : (a +:+ b) +:+ c = a +:+ (b +:+ c).
Proof.
  induction a as [|x a IH]; [reflexivity|].
  rewrite !app_cons. f_equal. exact IH.
Qed.

Lemma length_app_string (a b : string) :
  String.length (a +:+ b) = (String.length a + String.length b)%nat.
Proof.
  induction a as [|x a IH]; [reflexivity|].
  rewrite app_cons. simpl. f_equal. exact IH.
Qed.

Lemma startsWith_app (p r : string) : JS.startsWith (p +:+ r) p = true.
Proof.
  induction p as [|c p IH]; [reflexivity|].
  rewrite app_cons. simpl. rewrite Ascii.eqb_refl. exact IH.
Qed.

Lemma startsWith_inv (s p : string) :
  JS.startsWith s p = true -> exists r, s = p +:+ r.
Proof.
  revert s. induction p as [|c p IH]; intros s H; simpl in H.
  - exists s. reflexivity.
  - destruct s as [|d s]; [discriminate|].
    destruct (Ascii.eqb d c) eqn:E; [|discriminate].
    apply Ascii.eqb_eq in E. subst d.
    destruct (IH _ H) as [r ->]. exists r. reflexivity.
Qed.

Lemma drop_app (a b : string) : JS.drop (String.length a) (a +:+ b) = b.
Proof.
  induction a as [|x a IH]; [destruct b; reflexivity|].
  rewrite app_cons. simpl. exact IH.
Qed.

Lemma take_all (n : nat) (s : string) :
  (String.length s <= n)%nat -> JS.take n s = s.
Proof.
  revert n. induction s as [|x s IH]; intros [|n] H; simpl in *;
    try reflexivity; try lia.
  rewrite IH; [reflexivity|lia].
Qed.

(** [s.substring(i)] at the end of a known prefix *)
Lemma substring_from_app (a b : string) :
  JS.substring (a +:+ b) (JS.len a) None = b.
Proof.
  unfold JS.substring, JS.clamp, JS.len. rewrite length_app_string.
  rewrite Nat2Z.inj_add.
  set (la := Z.of_nat (String.length a)). set (lb := Z.of_nat (String.length b)).
  assert (0 <= la) by (subst la; lia). assert (0 <= lb) by (subst lb; lia).
  replace (Z.min (Z.min (Z.max la 0) (la + lb)) (la + lb)) with la by lia.
  replace (Z.max (Z.min (Z.max la 0) (la + lb)) (la + lb)) with (la + lb) by lia.
  subst la. rewrite Nat2Z.id, drop_app.
  apply take_all. subst lb. lia.
Qed.

(** [s.substring(i, i + 1)] is the character at [i] *)
Lemma substring_char_app (a : string) (c : Ascii.ascii) (b : string) :
  JS.substring (a +:+ String c b) (JS.len a) (Some (JS.len a + 1)) = String c "".
Proof.
  unfold JS.substring, JS.clamp, JS.len. rewrite length_app_string.
  rewrite Nat2Z.inj_add. simpl String.length.
  set (la := Z.of_nat (String.length a)).
  assert (0 <= la) by (subst la; lia).
  replace (Z.of_nat (S (String.length b))) with (Z.of_nat (String.length b) + 1) by lia.
  set (lb := Z.of_nat (String.length b)). assert (0 <= lb) by (subst lb; lia).
  replace (Z.min (Z.min (Z.max la 0) (la + (lb + 1)))
             (Z.min (Z.max (la + 1) 0) (la + (lb + 1)))) with la by lia.
  replace (Z.max (Z.min (Z.max la 0) (la + (lb + 1)))
             (Z.min (Z.max (la + 1) 0) (la + (lb + 1)))) with (la + 1) by lia.
  replace (la + 1 - la) with 1 by lia.
  subst la. rewrite Nat2Z.id, drop_app. reflexivity.
Qed.

Lemma len_app (a b : string) : JS.len (a +:+ b) = JS.len a + JS.len b.
Proof. unfold JS.len. rewrite length_app_string. lia. Qed.

Lemma len_nonneg (a : string) : 0 <= JS.len a.
Proof. unfold JS.len. lia. Qed.

Lemma len_dashes (n : nat) : JS.len (dashes n) = Z.of_nat n.
Proof. unfold JS.len. induction n as [|n IH]; simpl String.length; lia. Qed.

Lemma isDash_char (c : Ascii.ascii) :
  isDash (String c "") = Ascii.eqb c "-"%char.
Proof. unfold isDash. simpl. destruct (Ascii.eqb c "-"%char); reflexivity. Qed.

(** The fuel of [dropWhile_loop] never cuts the loop short: once it covers
    the characters from [index] on, more fuel changes nothing, because the
    loop condition [index < s.length] fails by then. *)
Lemma dropWhile_loop_enough (p : string -> bool) (s : string) :
  forall (fuel : nat) (index : Z),
    JS.len s - index <= Z.of_nat fuel ->
    dropWhile_loop (S fuel) s p index = dropWhile_loop fuel s p index.
Proof.
  induction fuel as [|fuel IH]; intros index Hfuel.
  - simpl. replace (index <? JS.len s) with false; [reflexivity|].
    symmetry. apply Z.ltb_ge. simpl in Hfuel. lia.
  - change (dropWhile_loop (S (S fuel)) s p index)
      with (if index <? JS.len s then
              if p (JS.substring s index (Some (index + 1)))
              then dropWhile_loop (S fuel) s p (index + 1)
              else index
            else index).
    rewrite IH by lia. reflexivity.
Qed.

(** the loop stops exactly behind the leading dashes *)
Lemma dropWhile_loop_dashes (n : nat) :
  forall (fuel : nat) (a key : string),
    JS.startsWith key "-" = false ->
    (String.length (dashes n +:+ key) <= fuel)%nat ->
    dropWhile_loop fuel (a +:+ dashes n +:+ key) isDash (JS.len a)
    = JS.len a + Z.of_nat n.
Proof.
  induction n as [|n IH]; intros fuel a key Hkey Hfuel.
  - simpl dashes. rewrite app_empty_l, Z.add_0_r.
    destruct fuel as [|fuel]; [reflexivity|]. simpl.
    destruct key as [|c key].
    + rewrite len_app. change (JS.len "") with 0.
      rewrite Z.add_0_r, Z.ltb_irrefl. reflexivity.
    + rewrite substring_char_app, isDash_char.
      simpl in Hkey. destruct (Ascii.eqb c "-"%char); [discriminate|].
      destruct (JS.len a <? _); reflexivity.
  - destruct fuel as [|fuel]; [simpl in Hfuel; lia|].
    simpl dashes. rewrite app_cons. simpl dropWhile_loop.
    rewrite substring_char_app, isDash_char. simpl Ascii.eqb.
    assert (Hlt : (JS.len a <? JS.len (a +:+ String "-"%char (dashes n +:+ key))) = true).
    { apply Z.ltb_lt. rewrite len_app. unfold JS.len at 3. simpl String.length. lia. }
    rewrite Hlt.
    replace (a +:+ String "-"%char (dashes n +:+ key))
      with ((a +:+ "-") +:+ dashes n +:+ key)
      by (rewrite app_assoc_string; reflexivity).
    replace (JS.len a + 1) with (JS.len (a +:+ "-"))
      by (rewrite len_app; reflexivity).
    rewrite IH; [rewrite len_app; change (JS.len "-") with 1; lia | exact Hkey |].
    simpl dashes in Hfuel. rewrite app_cons in Hfuel. simpl in Hfuel. lia.
Qed.

(** [dropWhile tag (c => c == "-")] strips all the leading dashes of [tag] *)
Lemma dropWhile_dashes (n : nat) (key : string) :
  JS.startsWith key "-" = false ->
  dropWhile (dashes n +:+ key) isDash = key.
Proof.
  intros Hkey. unfold dropWhile.
  pose proof (dropWhile_loop_dashes n (String.length (dashes n +:+ key)) "" key Hkey
                (Nat.le_refl _)) as H.
  rewrite app_empty_l in H. change (JS.len "") with 0 in H. rewrite H. simpl.
  destruct n as [|n]; [reflexivity|].
  replace (Z.of_nat (S n) =? 0) with false by (symmetry; apply Z.eqb_neq; lia).
  rewrite <- len_dashes. apply substring_from_app.
Qed.

(** every string is some dashes followed by a rest that starts otherwise *)
Lemma dashes_split (s : string) :
  exists (n : nat) (key : string),
    s = dashes n +:+ key /\ JS.startsWith key "-" = false.
Proof.
  induction s as [|c s (n & key & -> & Hkey)].
  - exists O, "". split; reflexivity.
  - destruct (Ascii.eqb c "-"%char) eqn:E.
    + apply Ascii.eqb_eq in E. subst c. exists (S n), key. split; [reflexivity|exact Hkey].
    + exists O, (String c (dashes n +:+ key)). split; [reflexivity|].
      simpl. rewrite E. reflexivity.
Qed.

Lemma lacks_tail (c d : Ascii.ascii) (s : string) :
  lacks c (String d s) -> lacks c s.
Proof. intros H a b ->. apply (H (String d a) b). reflexivity. Qed.

(** [indexOf] finds the first occurrence of the character *)
Lemma indexOf_from_first (c : Ascii.ascii) (pre post : string) (i : Z) :
  lacks c pre ->
  JS.indexOf_from (pre +:+ String c post) (String c "") i = i + JS.len pre.
Proof.
  revert i. induction pre as [|d pre IH]; intros i Hpre.
  - rewrite app_empty_l. simpl. rewrite Ascii.eqb_refl.
    change (JS.len "") with 0. lia.
  - rewrite app_cons. simpl.
    destruct (Ascii.eqb d c) eqn:E.
    + apply Ascii.eqb_eq in E. subst d. exfalso. apply (Hpre "" pre). reflexivity.
    + rewrite IH by (eapply lacks_tail; exact Hpre).
      unfold JS.len. simpl String.length. lia.
Qed.

(** a string in which [c] occurs splits at the first occurrence *)
Lemma split_first (c : Ascii.ascii) (s : string) :
  (exists a b, s = a +:+ String c b) ->
  exists pre post, s = pre +:+ String c post /\ lacks c pre.
Proof.
  induction s as [|d s IH]; intros (a & b & Hs).
  - destruct a; discriminate.
  - destruct (Ascii.eqb d c) eqn:E.
    + apply Ascii.eqb_eq in E. subst d. exists "", s. split; [reflexivity|].
      intros x y Hxy. destruct x; discriminate.
    + destruct a as [|x a].
      * rewrite app_empty_l in Hs. injection Hs as -> _.
        rewrite Ascii.eqb_refl in E. discriminate.
      * rewrite app_cons in Hs. injection Hs as -> ->.
        destruct IH as (pre & post & -> & Hpre); [exists a, b; reflexivity|].
        exists (String x pre), post. split; [reflexivity|].
        intros u v Huv. destruct u as [|y u].
        -- rewrite app_empty_l in Huv. injection Huv as -> _.
           rewrite Ascii.eqb_refl in E. discriminate.
        -- rewrite app_cons in Huv. injection Huv as _ Huv.
           exact (Hpre u v Huv).
Qed.

End Builtins.

(** ** Facts about [some] and [find] *)

Section Arrays.

Context {A : Type}.

Lemma head_cons (x : A) (l : list A) : head (x :: l) = Some x.
Proof. reflexivity. Qed.

Lemma some_true_inv (p : A -> JS.res bool) (arr : list A) :
  JS.some p arr = JS.Ok true -> exists x, In x arr /\ p x = JS.Ok true.
Proof.
  induction arr as [|x arr IH]; simpl; [discriminate|].
  destruct (p x) as [[|]|] eqn:E; intros H.
  - exists x. split; [left; reflexivity | exact E].
  - destruct (IH H) as (y & Hy & Hp). exists y. split; [right; exact Hy | exact Hp].
  - discriminate.
Qed.

(** a callback that cannot throw makes [some] the test for an accepted element *)
Lemma some_pure (q : A -> bool) (arr : list A) :
  JS.some (fun x => JS.Ok (q x)) arr = JS.Ok (existsb q arr).
Proof.
  induction arr as [|x arr IH]; simpl; [reflexivity|].
  destruct (q x); [reflexivity | exact IH].
Qed.

(** [find] returns the first accepted element *)
Lemma find_first (p : A -> JS.res bool) (before after : list A) (x : A) :
  Forall (fun y => p y = JS.Ok false) before ->
  p x = JS.Ok true ->
  JS.find p (before ++ x :: after) = JS.Ok (Some x).
Proof.
  intros Hb Hx. induction Hb as [|y before Hy _ IH]; simpl.
  - rewrite Hx. reflexivity.
  - rewrite Hy. exact IH.
Qed.

Lemma find_none (p : A -> JS.res bool) (arr : list A) :
  Forall (fun y => p y = JS.Ok false) arr -> JS.find p arr = JS.Ok None.
Proof.
  intros H. induction H as [|y arr Hy _ IH]; simpl; [reflexivity|].
  rewrite Hy. exact IH.
Qed.

(** what [find] returns was accepted, and is in the array *)
Lemma find_some_inv (p : A -> JS.res bool) (arr : list A) (x : A) :
  JS.find p arr = JS.Ok (Some x) -> In x arr /\ p x = JS.Ok true.
Proof.
  induction arr as [|y arr IH]; simpl; [discriminate|].
  destruct (p y) as [[|]|] eqn:E; intros H.
  - injection H as ->. split; [left; reflexivity | exact E].
  - destruct (IH H) as [Hin Hp]. split; [right; exact Hin | exact Hp].
  - discriminate.
Qed.

End Arrays.

(** ** The option classes *)

Section Options.

Variables OptCallback CmdCallback : Type.
Variable runOpt :
  OptCallback -> Definition_ OptCallback CmdCallback -> world -> outcome.
Variable punctuate : PP.Doc -> list PP.Doc -> list PP.Doc.

Local Abbreviation Option := (Option OptCallback).
Local Abbreviation Definition_ := (Definition_ OptCallback CmdCallback).
Local Abbreviation doNow := (Option_doNow runOpt punctuate).
Local Abbreviation canDo := (@Option_canDo OptCallback).

(** A [ValueOption] whose first tag is [n] dashes and then [key], applied to
    a head token that splits at its first [=] into [pre] and [post]. *)
Lemma ValueOption_doNow_at (others : list string) (help : string)
    (cli : Definition_) (w : world) (n : nat) (key pre post : string)
    (rest : list string) :
  JS.startsWith key "-" = false ->
  lacks "="%char pre ->
  args w = (pre +:+ "=" +:+ post) :: rest ->
  doNow (ValueOption ((dashes n +:+ key) :: others) help) cli w
  = Normal (World rest (<[key := VString post]> (values w)) (output w) (pending w)).
Proof.
  intros Hkey Hpre Hargs. unfold Option_doNow. rewrite Hargs, !head_cons.
  rewrite (dropWhile_dashes n key Hkey).
  unfold JS.indexOf.
  change (pre +:+ "=" +:+ post) with (pre +:+ String "="%char post).
  change "=" with (String "="%char "") at 1.
  rewrite (indexOf_from_first "="%char pre post 0 Hpre), Z.add_0_l.
  replace (pre +:+ String "="%char post) with ((pre +:+ "=") +:+ post)
    by (rewrite app_assoc_string; reflexivity).
  replace (JS.len pre + 1) with (JS.len (pre +:+ "="))
    by (rewrite len_app; reflexivity).
  rewrite substring_from_app.
  unfold splice01, set_value, set_args. simpl. rewrite Hargs. reflexivity.
Qed.

(** a head token accepted by a [ValueOption] contains an [=], and the option
    has a first tag *)
Lemma ValueOption_canDo_inv (tags : list string) (help : string)
    (token : string) (rest : list string) :
  Option_canDo (ValueOption (OptCallback := OptCallback) tags help) (token :: rest)
  = JS.Ok true ->
  (exists tag, In tag tags /\ exists r, token = tag +:+ "=" +:+ r).
Proof.
  unfold Option_canDo. rewrite head_cons. intros H.
  apply some_true_inv in H. destruct H as (tag & Hin & Htag).
  injection Htag as Htag. apply startsWith_inv in Htag. destruct Htag as [r ->].
  exists tag. split; [exact Hin|]. exists r. apply app_assoc_string.
Qed.

(** A [FlagOption] whose first tag is [n] dashes and then [key]. *)
Lemma FlagOption_doNow_at (others : list string) (help : string)
    (cli : Definition_) (w : world) (n : nat) (key token : string)
    (rest : list string) :
  JS.startsWith key "-" = false ->
  args w = token :: rest ->
  doNow (FlagOption ((dashes n +:+ key) :: others) help) cli w
  = Normal (World rest (<[key := VBool true]> (values w)) (output w) (pending w)).
Proof.
  intros Hkey Hargs. unfold Option_doNow. rewrite head_cons.
  rewrite (dropWhile_dashes n key Hkey).
  unfold splice01, set_value, set_args. simpl. rewrite Hargs. reflexivity.
Qed.

(** the predicate of a [FlagOption] (and of a [DoOption]) is membership of
    the head token in the tags *)
Lemma exact_tag_test (tags : list string) (token : string) :
  existsb (fun t => String.eqb t token) tags = true <-> In token tags.
Proof.
  rewrite existsb_exists. split.
  - intros (t & Hin & Heq). apply String.eqb_eq in Heq. subst t. exact Hin.
  - intros Hin. exists token. split; [exact Hin | apply String.eqb_refl].
Qed.

Lemma FlagOption_canDo_eq (tags : list string) (help : string)
    (token : string) (rest : list string) :
  Option_canDo (FlagOption (OptCallback := OptCallback) tags help) (token :: rest)
  = JS.Ok (existsb (fun t => String.eqb t token) tags).
Proof. unfold Option_canDo. rewrite head_cons. apply some_pure. Qed.

(** what [doNow] of a [ValueOption] does to an accepted head token *)
Lemma ValueOption_doNow_accepted (tags : list string) (help : string)
    (cli : Definition_) (w : world) (token : string) (rest : list string) :
  args w = token :: rest ->
  canDo (ValueOption tags help) (args w) = JS.Ok true ->
  exists (tag0 : string) (others : list string) (n : nat)
         (key pre post : string),
    tags = tag0 :: others /\
    tag0 = dashes n +:+ key /\ JS.startsWith key "-" = false /\
    token = pre +:+ "=" +:+ post /\ lacks "="%char pre /\
    doNow (ValueOption tags help) cli w
    = Normal (World rest (<[key := VString post]> (values w))
                (output w) (pending w)).
Proof.
  intros Hargs Hcan. rewrite Hargs in Hcan.
  destruct (ValueOption_canDo_inv _ _ _ _ Hcan) as (tag & Hin & r & Htok).
  destruct tags as [|tag0 others]; [destruct Hin|].
  destruct (dashes_split tag0) as (n & key & Htag0 & Hkey).
  destruct (split_first "="%char token) as (pre & post & Hsplit & Hpre).
  { exists tag, r. exact Htok. }
  exists tag0, others, n, key, pre, post.
  repeat split; try assumption.
  subst tag0. apply (ValueOption_doNow_at others help cli w n key pre post rest Hkey Hpre).
  rewrite Hargs, Hsplit. reflexivity.
Qed.

(** C2.  A [ValueOption] applied through [doNow] to a non-empty token array
    whose head it accepts removes exactly the head token, splits it at its
    first [=], and stores what follows that [=] under the canonical key: the
    first declared tag without its leading dashes.  In particular an option
    tagged [--foo] stores ["bar"] under ["foo"] for the head [--foo=bar],
    and the empty string for the head [--foo=]. *)
Theorem ValueOption_doNow_stores_value :
  (forall (tags : list string) (help : string) (cli : Definition_) (w : world)
          (token : string) (rest : list string),
      args w = token :: rest ->
      canDo (ValueOption tags help) (args w) = JS.Ok true ->
      exists (tag0 : string) (others : list string) (n : nat)
             (key pre post : string),
        tags = tag0 :: others /\
        tag0 = dashes n +:+ key /\ JS.startsWith key "-" = false /\
        token = pre +:+ "=" +:+ post /\ lacks "="%char pre /\
        doNow (ValueOption tags help) cli w
        = Normal (World rest (<[key := VString post]> (values w))
                    (output w) (pending w)))
  /\ (forall (others : list string) (help : string) (cli : Definition_)
             (rest : list string) (vs : gmap string value) (out : list event)
             (pend : list continuation),
        canDo (ValueOption ("--foo" :: others) help)
          ("--foo=bar" :: rest) = JS.Ok true /\
        exists w' : world,
          doNow (ValueOption ("--foo" :: others) help) cli
            (World ("--foo=bar" :: rest) vs out pend) = Normal w' /\
          args w' = rest /\
          values w' !! "foo" = Some (VString "bar"))
  /\ (forall (others : list string) (help : string) (cli : Definition_)
             (rest : list string) (vs : gmap string value) (out : list event)
             (pend : list continuation),
        canDo (ValueOption ("--foo" :: others) help)
          ("--foo=" :: rest) = JS.Ok true /\
        exists w' : world,
          doNow (ValueOption ("--foo" :: others) help) cli
            (World ("--foo=" :: rest) vs out pend) = Normal w' /\
          args w' = rest /\
          values w' !! "foo" = Some (VString "")).
Proof.
  split; [|split].
  - intros tags help cli w token rest. apply ValueOption_doNow_accepted.
  - intros others help cli rest vs out pend. split; [reflexivity|].
    eexists. split.
    + apply (ValueOption_doNow_at others help cli _ 2 "foo" "--foo" "bar" rest).
      * reflexivity.
      * intros a b Hab. revert Hab.
        destruct a as [|? [|? [|? [|? [|? [|? a]]]]]]; discriminate.
      * reflexivity.
    + split; [reflexivity | apply lookup_insert_eq].
  - intros others help cli rest vs out pend. split; [reflexivity|].
    eexists. split.
    + apply (ValueOption_doNow_at others help cli _ 2 "foo" "--foo" "" rest).
      * reflexivity.
      * intros a b Hab. revert Hab.
        destruct a as [|? [|? [|? [|? [|? [|? a]]]]]]; discriminate.
      * reflexivity.
    + split; [reflexivity | apply lookup_insert_eq].
Qed.

(** C8.  The predicate of a [FlagOption] holds exactly when the head token
    equals one of the declared tags.  For the tag [-x]: the token [-x] is
    accepted and applying the option stores [true] under ["x"]; the tokens
    [-xx] and [-x=y] are not accepted. *)
Theorem FlagOption_matches_exact_tag :
  (forall (tags : list string) (help : string) (token : string)
          (rest : list string),
      exists b : bool,
        canDo (FlagOption tags help)
          (token :: rest) = JS.Ok b /\
        (b = true <-> In token tags))
  /\ (forall (help : string) (cli : Definition_) (rest : list string)
             (vs : gmap string value) (out : list event)
             (pend : list continuation),
        canDo (FlagOption ["-x"] help)
          ("-x" :: rest) = JS.Ok true /\
        (exists w' : world,
            doNow (FlagOption ["-x"] help) cli (World ("-x" :: rest) vs out pend)
            = Normal w' /\
            args w' = rest /\
            values w' !! "x" = Some (VBool true)) /\
        canDo (FlagOption ["-x"] help)
          ("-xx" :: rest) = JS.Ok false /\
        canDo (FlagOption ["-x"] help)
          ("-x=y" :: rest) = JS.Ok false).
Proof.
  split.
  - intros tags help token rest.
    exists (existsb (fun t => String.eqb t token) tags).
    split; [apply FlagOption_canDo_eq | apply exact_tag_test].
  - intros help cli rest vs out pend.
    split; [reflexivity|]. split; [|split; reflexivity].
    eexists. split.
    + apply (FlagOption_doNow_at [] help cli _ 1 "x" "-x" rest); reflexivity.
    + split; [reflexivity | apply lookup_insert_eq].
Qed.

(** C10.  A [FlagOption] or [ValueOption] applied through [doNow] to a
    non-empty token array whose head it accepts removes exactly the head
    token, the tokens behind it staying as they are and in their order, and
    writes one entry of the value store, the one of the canonical key
    derived from the first tag; every other key keeps its value.  Nothing
    is written to the output and nothing is suspended. *)
Theorem storing_options_frame :
  forall (o : Option) (tags : list string) (help : string) (cli : Definition_)
         (w : world) (token : string) (rest : list string),
    o = ValueOption tags help \/ o = FlagOption tags help ->
    args w = token :: rest ->
    canDo o (args w) = JS.Ok true ->
    exists (tag0 : string) (others : list string) (n : nat) (key : string)
           (v : value) (w' : world),
      tags = tag0 :: others /\
      tag0 = dashes n +:+ key /\ JS.startsWith key "-" = false /\
      doNow o cli w = Normal w' /\
      args w' = rest /\
      values w' = <[key := v]> (values w) /\
      (forall k : string, k <> key -> values w' !! k = values w !! k) /\
      output w' = output w /\
      pending w' = pending w.
Proof.
  intros o tags help cli w token rest [-> | ->] Hargs Hcan.
  - destruct (ValueOption_doNow_accepted tags help cli w token rest Hargs Hcan)
      as (tag0 & others & n & key & pre & post & Ht & Ht0 & Hkey & _ & _ & Hdo).
    exists tag0, others, n, key, (VString post). eexists.
    split; [exact Ht|]. split; [exact Ht0|]. split; [exact Hkey|].
    split; [exact Hdo|]. simpl.
    split; [reflexivity|]. split; [reflexivity|].
    split; [|split; reflexivity].
    intros k Hk. apply lookup_insert_ne. congruence.
  - rewrite Hargs, FlagOption_canDo_eq in Hcan. injection Hcan as Hcan.
    destruct tags as [|tag0 others]; [discriminate|].
    destruct (dashes_split tag0) as (n & key & Htag0 & Hkey).
    exists tag0, others, n, key, (VBool true). eexists.
    split; [reflexivity|]. split; [exact Htag0|]. split; [exact Hkey|].
    split.
    { subst tag0.
      apply (FlagOption_doNow_at others help cli w n key token rest Hkey Hargs). }
    simpl.
    split; [reflexivity|]. split; [reflexivity|].
    split; [|split; reflexivity].
    intros k Hk. apply lookup_insert_ne. congruence.
Qed.

End Options.

(** ** The option-list processor *)

Section Scanning.

Variables OptCallback CmdCallback : Type.
Variable runOpt :
  OptCallback -> Definition_ OptCallback CmdCallback -> world -> outcome.
Variable punctuate : PP.Doc -> list PP.Doc -> list PP.Doc.

Local Abbreviation Option := (Option OptCallback).
Local Abbreviation Definition_ := (Definition_ OptCallback CmdCallback).
Local Abbreviation canDo := (@Option_canDo OptCallback).
Local Abbreviation doNow := (Option_doNow runOpt punctuate).
Local Abbreviation body := (processOptions_body runOpt punctuate).
Local Abbreviation scan := (processOptions runOpt punctuate).
Local Abbreviation reaches := (reaches runOpt punctuate).

(** one unfolding of the loop *)
Lemma processOptions_S (fuel : nat) (cli : Definition_) (options : list Option)
    (w : world) :
  scan (S fuel) cli options w
  = if processOptions_cond w then
      match body cli options w with
      | Break w' => Some (Normal w')
      | Continue w' => scan fuel cli options w'
      | Leave o => Some o
      end
    else Some (Normal w).
Proof. reflexivity. Qed.

(** the loop condition holds exactly on a head token that starts with a dash *)
Lemma cond_true_inv (w : world) :
  processOptions_cond w = true ->
  exists token rest, args w = token :: rest /\ JS.startsWith token "-" = true.
Proof.
  unfold processOptions_cond. destruct (args w) as [|token rest]; [discriminate|].
  intros H. exists token, rest. split; [reflexivity | exact H].
Qed.

Lemma cond_false_inv (w : world) :
  processOptions_cond w = false ->
  args w = [] \/
  exists token rest, args w = token :: rest /\ JS.startsWith token "-" = false.
Proof.
  unfold processOptions_cond. destruct (args w) as [|token rest]; [left; reflexivity|].
  intros H. right. exists token, rest. split; [reflexivity | exact H].
Qed.

(** the body of the loop on a head token that is not the terminator *)
Lemma body_no_terminator (cli : Definition_) (options : list Option) (w : world)
    (token : string) (rest : list string) :
  args w = token :: rest ->
  token <> "--" ->
  body cli options w
  = match JS.find (fun o => canDo o (args w)) options with
    | JS.TypeError => Leave (Thrown w)
    | JS.Ok None =>
        Leave (Exited (-1) (emit (ConsoleLog ("Error: Invalid option " +:+ token)) w))
    | JS.Ok (Some o) =>
        match doNow o cli w with
        | Normal w' => Continue w'
        | other => Leave other
        end
    end.
Proof.
  intros Hargs Hne. unfold processOptions_body. rewrite Hargs, !head_cons.
  destruct (String.eqb token "--") eqn:E; [apply String.eqb_eq in E; contradiction|].
  rewrite <- Hargs. destruct (JS.find _ options) as [[o|]|]; reflexivity.
Qed.

(** the loop breaks only on the terminator, of which it consumes one token *)
Lemma body_Break_inv (cli : Definition_) (options : list Option) (w w' : world) :
  body cli options w = Break w' ->
  args w = "--" :: args w' /\
  values w' = values w /\ output w' = output w /\ pending w' = pending w.
Proof.
  destruct (args w) as [|token rest] eqn:Hargs.
  - unfold processOptions_body. rewrite Hargs. simpl.
    destruct (JS.find _ options) as [[o|]|]; try discriminate.
    destruct (Option_doNow _ _ o cli w); discriminate.
  - destruct (String.eqb token "--") eqn:E.
    + apply String.eqb_eq in E. subst token.
      unfold processOptions_body. rewrite Hargs, head_cons. simpl.
      intros H. injection H as <-. unfold splice01. rewrite Hargs. simpl.
      repeat split; reflexivity.
    + apply String.eqb_neq in E. rewrite (body_no_terminator _ _ _ _ _ Hargs E).
      destruct (JS.find _ options) as [[o|]|]; try discriminate.
      destruct (Option_doNow _ _ o cli w); discriminate.
Qed.

(** an iteration that leaves the loop otherwise does not return normally *)
Lemma body_Leave_inv (cli : Definition_) (options : list Option) (w : world)
    (o : outcome) :
  body cli options w = Leave o -> forall w', o <> Normal w'.
Proof.
  unfold processOptions_body.
  destruct (match head (args w) with Some a0 => String.eqb a0 "--" | None => false end);
    [discriminate|].
  destruct (JS.find _ options) as [[opt|]|].
  - destruct (Option_doNow _ _ opt cli w); intros H; try discriminate;
      injection H as <-; intros w' Hw; discriminate.
  - simpl. intros H; injection H as <-. intros w' Hw; discriminate.
  - intros H; injection H as <-. intros w' Hw; discriminate.
Qed.

(** an iteration that goes on applied an option of the list that accepted
    the tokens, and that option returned *)
Lemma body_Continue_inv (cli : Definition_) (options : list Option) (w w' : world) :
  body cli options w = Continue w' ->
  exists o, In o options /\ canDo o (args w) = JS.Ok true /\ doNow o cli w = Normal w'.
Proof.
  unfold processOptions_body.
  destruct (match head (args w) with Some a0 => String.eqb a0 "--" | None => false end);
    [discriminate|].
  destruct (JS.find _ options) as [[opt|]|] eqn:Hfind.
  - apply find_some_inv in Hfind. destruct Hfind as [Hin Hcan].
    destruct (Option_doNow _ _ opt cli w) eqn:Hdo; try discriminate.
    intros H. injection H as <-. exists opt. repeat split; assumption.
  - simpl. discriminate.
  - discriminate.
Qed.

(** C1.  Whenever [processOptions] returns normally, the token array is
    empty, or its head token does not start with a dash, or the loop had
    come to a head token [--], consumed exactly that token and left the
    tokens behind it, the store, the output and the suspended continuations
    as they stood. *)
Theorem processOptions_postcondition :
  forall (fuel : nat) (cli : Definition_) (options : list Option) (w w' : world),
    scan fuel cli options w = Some (Normal w') ->
    args w' = []
    \/ (exists token rest,
          args w' = token :: rest /\ JS.startsWith token "-" = false)
    \/ (exists wm : world,
          reaches cli options w wm /\
          args wm = "--" :: args w' /\
          values w' = values wm /\ output w' = output wm /\
          pending w' = pending wm).
Proof.
  induction fuel as [|fuel IH]; intros cli options w w' H; [discriminate|].
  rewrite processOptions_S in H.
  destruct (processOptions_cond w) eqn:Hcond.
  - destruct (processOptions_body _ _ cli options w) as [w1|w1|o] eqn:Hbody.
    + injection H as <-. right. right. exists w. split; [constructor|].
      exact (body_Break_inv _ _ _ _ Hbody).
    + destruct (IH _ _ _ _ H) as [He | [Hp | (wm & Hreach & Hwm)]].
      * left. exact He.
      * right. left. exact Hp.
      * right. right. exists wm. split; [|exact Hwm].
        eapply reaches_next; eassumption.
    + injection H as ->. exfalso. exact (body_Leave_inv _ _ _ _ Hbody w' eq_refl).
  - injection H as <-. destruct (cond_false_inv _ Hcond) as [He | Hp].
    + left. exact He.
    + right. left. exact Hp.
Qed.

(** C4.  On a head token that starts with a dash and is not the terminator,
    the loop applies the first option in declaration order whose predicate
    accepts the token, whatever the options declared behind it accept. *)
Theorem first_declared_option_wins :
  forall (cli : Definition_) (options before after : list Option) (o : Option)
         (w : world) (token : string) (rest : list string),
    args w = token :: rest ->
    JS.startsWith token "-" = true ->
    token <> "--" ->
    options = before ++ o :: after ->
    Forall (fun o' => canDo o' (args w) = JS.Ok false) before ->
    canDo o (args w) = JS.Ok true ->
    body cli options w
    = match doNow o cli w with
      | Normal w' => Continue w'
      | other => Leave other
      end
    /\ forall fuel : nat,
        scan (S fuel) cli options w
        = match doNow o cli w with
          | Normal w' => scan fuel cli options w'
          | other => Some other
          end.
Proof.
  intros cli options before after o w token rest Hargs Hdash Hne -> Hbefore Ho.
  assert (Hbody : body cli (before ++ o :: after) w
                  = match doNow o cli w with
                    | Normal w' => Continue w'
                    | other => Leave other
                    end).
  { rewrite (body_no_terminator _ _ _ _ _ Hargs Hne).
    rewrite (find_first (fun o' => canDo o' (args w)) before after o Hbefore Ho).
    reflexivity. }
  split; [exact Hbody|]. intros fuel.
  rewrite processOptions_S, Hbody.
  unfold processOptions_cond. rewrite Hargs, Hdash.
  destruct (Option_doNow _ _ o cli w); reflexivity.
Qed.

(** what [doNow] leaves of a non-empty token array *)
Lemma doNow_shrinks (o : Option) (cli : Definition_) (w w' : world)
    (token : string) (rest : list string) :
  tame runOpt o ->
  args w = token :: rest ->
  doNow o cli w = Normal w' ->
  (length (args w') <= length rest)%nat.
Proof.
  intros Htame Hargs. destruct o as [tags help|tags help|tags help [|f]];
    unfold Option_doNow.
  - rewrite Hargs, head_cons. destruct (head tags); [|discriminate].
    intros H. injection H as <-. simpl. rewrite Hargs. simpl. lia.
  - destruct (head tags); [|discriminate].
    intros H. injection H as <-. simpl. rewrite Hargs. simpl. lia.
  - simpl. unfold helpFlag_action. intros H. injection H as <-. simpl.
    rewrite Hargs. simpl. lia.
  - simpl. intros H. apply Htame in H. simpl in H. rewrite Hargs in H. exact H.
Qed.

(** C9, as the code has it.  When no callback of the host leaves the token
    array longer than it found it (in particular when the list holds only
    [FlagOption]s, [ValueOption]s and the built-in help flag), every
    iteration that goes back to the loop condition leaves strictly fewer
    tokens, and the loop ends within as many iterations as there are tokens,
    plus the one that sees the condition fail. *)
Theorem processOptions_terminates_when_tame :
  forall (cli : Definition_) (options : list Option),
    Forall (tame runOpt) options ->
    (forall w w' : world,
        processOptions_cond w = true ->
        body cli options w = Continue w' ->
        (length (args w') < length (args w))%nat)
    /\ (forall (fuel : nat) (w : world),
          (length (args w) < fuel)%nat ->
          exists o : outcome, scan fuel cli options w = Some o).
Proof.
  intros cli options Htame.
  assert (Hdec : forall w w' : world,
             processOptions_cond w = true ->
             body cli options w = Continue w' ->
             (length (args w') < length (args w))%nat).
  { intros w w' Hcond Hbody.
    destruct (cond_true_inv _ Hcond) as (token & rest & Hargs & _).
    destruct (body_Continue_inv _ _ _ _ Hbody) as (o & Hin & _ & Hdo).
    rewrite Forall_forall in Htame.
    apply list_elem_of_In in Hin.
    pose proof (doNow_shrinks o cli w w' token rest (Htame o Hin) Hargs Hdo).
    rewrite Hargs. simpl. lia. }
  split; [exact Hdec|].
  induction fuel as [|fuel IH]; intros w Hlen; [lia|].
  rewrite processOptions_S.
  destruct (processOptions_cond w) eqn:Hcond; [|eexists; reflexivity].
  destruct (processOptions_body _ _ cli options w) as [w1|w1|o] eqn:Hbody;
    try (eexists; reflexivity).
  apply IH. pose proof (Hdec w w1 Hcond Hbody). lia.
Qed.

End Scanning.

(** ** Commands and the dispatcher *)

Section Dispatch.

Variables OptCallback CmdCallback : Type.
Variable runOpt :
  OptCallback -> Definition_ OptCallback CmdCallback -> world -> outcome.
Variable runCmd :
  CmdCallback -> Definition_ OptCallback CmdCallback -> option string ->
  world -> outcome.
Variable punctuate : PP.Doc -> list PP.Doc -> list PP.Doc.

Local Abbreviation Option := (Option OptCallback).
Local Abbreviation Command := (Command OptCallback CmdCallback).
Local Abbreviation Definition_ := (Definition_ OptCallback CmdCallback).
Local Abbreviation canDo := (@Option_canDo OptCallback).
Local Abbreviation scan := (processOptions runOpt punctuate).
Local Abbreviation call := (CmdAction_call runCmd punctuate).
Local Abbreviation afterOptions := (Command_afterOptions runCmd punctuate).
Local Abbreviation cmdDoNow := (Command_doNow runOpt runCmd punctuate).
Local Abbreviation route := (dispatch runOpt runCmd punctuate).
Local Abbreviation run := (process runOpt runCmd punctuate).

(** [canDo] of a command is the exact test of the head token *)
Lemma Command_canDo_iff (c : Command) (args : list string) :
  Command_canDo c args = true <-> exists rest, args = cmd_name c :: rest.
Proof.
  unfold Command_canDo. destruct args as [|a0 rest].
  - simpl. split; [discriminate | intros [rest H]; discriminate].
  - rewrite head_cons. simpl. split.
    + intros H. apply String.eqb_eq in H. subst a0. exists rest. reflexivity.
    + intros [rest' H]. injection H as -> _. apply String.eqb_refl.
Qed.

Lemma Command_canDo_false (c : Command) (token : string) (rest : list string) :
  cmd_name c <> token -> Command_canDo c (token :: rest) = false.
Proof.
  intros Hne. destruct (Command_canDo c (token :: rest)) eqn:E; [|reflexivity].
  apply Command_canDo_iff in E. destruct E as [rest' E].
  injection E as E _. congruence.
Qed.

Lemma Forall_canDo_false (cmds : list Command) (token : string) (rest : list string) :
  Forall (fun c => cmd_name c <> token) cmds ->
  Forall (fun c => JS.Ok (Command_canDo c (token :: rest)) = JS.Ok false) cmds.
Proof.
  intros H. induction H as [|c cmds Hc _ IH]; constructor; [|exact IH].
  rewrite (Command_canDo_false c token rest Hc). reflexivity.
Qed.

(** the dispatcher, on no token, on an unknown name, on a known one *)
Lemma dispatch_empty (fuel : nat) (cli : Definition_) (w : world) :
  args w = [] -> route fuel cli w = Some (fails NoCommandSpecified w).
Proof. intros H. unfold dispatch. rewrite H. reflexivity. Qed.

Lemma dispatch_unknown (fuel : nat) (cli : Definition_) (w : world)
    (token : string) (rest : list string) :
  args w = token :: rest ->
  Forall (fun c => cmd_name c <> token) (cli_cmds cli) ->
  route fuel cli w = Some (fails (UnknownCommand token) w).
Proof.
  intros Hargs Hnone. unfold dispatch. rewrite Hargs.
  rewrite (find_none _ _ (Forall_canDo_false _ token rest Hnone)).
  reflexivity.
Qed.

Lemma dispatch_known (fuel : nat) (cli : Definition_) (w : world)
    (token : string) (rest : list string) (before after : list Command)
    (c : Command) :
  args w = token :: rest ->
  cli_cmds cli = before ++ c :: after ->
  Forall (fun c' => cmd_name c' <> token) before ->
  cmd_name c = token ->
  route fuel cli w = cmdDoNow fuel c cli (set_args rest w).
Proof.
  intros Hargs Hcmds Hbefore Hc. unfold dispatch. rewrite Hargs, Hcmds.
  rewrite (find_first (fun c' => JS.Ok (Command_canDo c' (token :: rest)))
             before after c (Forall_canDo_false _ token rest Hbefore)).
  - unfold splice01. rewrite Hargs. reflexivity.
  - f_equal. apply Command_canDo_iff. exists rest. rewrite Hc. reflexivity.
Qed.

Lemma process_after_options (fuel : nat) (cli : Definition_)
    (Deno_args : list string) (w1 : world) :
  scan fuel cli (cli_options cli) (World Deno_args ∅ [] []) = Some (Normal w1) ->
  run fuel cli Deno_args = route fuel cli w1.
Proof. intros H. unfold process. rewrite H. reflexivity. Qed.

Lemma Command_doNow_after_options (fuel : nat) (c : Command) (cli : Definition_)
    (w w1 : world) :
  scan fuel cli (cmd_options c) w = Some (Normal w1) ->
  cmdDoNow fuel c cli w = Some (afterOptions c cli w1).
Proof. intros H. unfold Command_doNow. rewrite H. reflexivity. Qed.

(** the loop on a head token that no option accepts *)
Lemma processOptions_unknown (fuel : nat) (cli : Definition_)
    (options : list Option) (w : world) (token : string) (rest : list string) :
  args w = token :: rest ->
  JS.startsWith token "-" = true ->
  token <> "--" ->
  Forall (fun o => canDo o (args w) = JS.Ok false) options ->
  scan (S fuel) cli options w = Some (fails (UnknownOption token) w).
Proof.
  intros Hargs Hdash Hne Hnone. rewrite processOptions_S.
  unfold processOptions_cond. rewrite Hargs, Hdash.
  rewrite (body_no_terminator _ _ runOpt punctuate cli options w token rest Hargs Hne).
  rewrite (find_none _ _ Hnone). reflexivity.
Qed.

Lemma helpCmd_unknown (cli : Definition_) (w : world) (v : string) :
  Forall (fun c => cmd_name c <> v) (cli_cmds cli) ->
  helpCmd_action punctuate cli (Some v) w = fails (UnknownHelpTarget v) w.
Proof.
  intros Hnone. unfold helpCmd_action.
  rewrite (find_none (fun c => JS.Ok (String.eqb (cmd_name c) v)) (cli_cmds cli)).
  - reflexivity.
  - induction Hnone as [|c cmds Hc _ IH]; constructor; [|exact IH].
    f_equal. apply String.eqb_neq. exact Hc.
Qed.

(** C3.  Once the own option list of a [ValueCommand] has been processed,
    the number of tokens left decides what [doNow] does: none left and the
    value optional, the action is called with an absent value; none left
    and the value required, [<name> requires a value] is reported and the
    process exits with failure; exactly one left, the action is called with
    that token; more than one left, [Too many arguments <tokens>] is
    reported and the process exits with failure. *)
Theorem ValueCommand_doNow_cases :
  forall (fuel : nat) (c : Command) (cli : Definition_) (w w1 : world),
    scan fuel cli (cmd_options c) w = Some (Normal w1) ->
    (args w1 = [] -> sv_optional (cmd_showValue c) = true ->
     cmdDoNow fuel c cli w = Some (call (cmd_action c) cli None w1))
    /\ (args w1 = [] -> sv_optional (cmd_showValue c) = false ->
        cmdDoNow fuel c cli w
        = Some (Exited (-1)
                  (emit (ConsoleLog
                           ("Error: " +:+ sv_name (cmd_showValue c)
                            +:+ " requires a value")) w1)))
    /\ (forall a : string,
          args w1 = [a] ->
          cmdDoNow fuel c cli w = Some (call (cmd_action c) cli (Some a) w1))
    /\ (forall (a b : string) (rest : list string),
          args w1 = a :: b :: rest ->
          cmdDoNow fuel c cli w
          = Some (Exited (-1)
                    (emit (ConsoleLog
                             ("Error: Too many arguments "
                              +:+ JS.join "," (a :: b :: rest))) w1))).
Proof.
  intros fuel c cli w w1 Hscan.
  rewrite (Command_doNow_after_options _ _ _ _ _ Hscan).
  unfold Command_afterOptions.
  split; [|split; [|split]].
  - intros -> ->. reflexivity.
  - intros -> ->. reflexivity.
  - intros a ->. reflexivity.
  - intros a b rest ->. reflexivity.
Qed.

(** C5.  [canDo] of a command holds exactly when the token array is not empty
    and its head token equals the name of the command.  After the global
    options are processed, [process] reports
    [Invalid arguments - no command specified] and exits with failure when
    no token is left; reports [Invalid command <token>] and exits with
    failure when no command has the head token as its name; and otherwise
    consumes the head token and calls [doNow] of the first command in
    declaration order that has that name. *)
Theorem process_dispatches_by_exact_name :
  (forall (c : Command) (args : list string),
      Command_canDo c args = true <-> exists rest, args = cmd_name c :: rest)
  /\ (forall (fuel : nat) (cli : Definition_) (Deno_args : list string)
            (w1 : world),
        scan fuel cli (cli_options cli) (World Deno_args ∅ [] []) = Some (Normal w1) ->
        (args w1 = [] ->
         run fuel cli Deno_args
         = Some (Exited (-1)
                   (emit (ConsoleLog "Error: Invalid arguments - no command specified")
                      w1)))
        /\ (forall (token : string) (rest : list string),
              args w1 = token :: rest ->
              Forall (fun c => Command_canDo c (args w1) = false) (cli_cmds cli) ->
              run fuel cli Deno_args
              = Some (Exited (-1)
                        (emit (ConsoleLog ("Error: Invalid command " +:+ token)) w1)))
        /\ (forall (token : string) (rest : list string)
                   (before after : list Command) (c : Command),
              args w1 = token :: rest ->
              cli_cmds cli = before ++ c :: after ->
              Forall (fun c' => Command_canDo c' (args w1) = false) before ->
              Command_canDo c (args w1) = true ->
              run fuel cli Deno_args = cmdDoNow fuel c cli (set_args rest w1))).
Proof.
  split; [exact Command_canDo_iff|].
  intros fuel cli Deno_args w1 Hscan.
  rewrite (process_after_options _ _ _ _ Hscan).
  assert (Hnames : forall (token : string) (rest : list string) (cmds : list Command),
             Forall (fun c => Command_canDo c (token :: rest) = false) cmds ->
             Forall (fun c => cmd_name c <> token) cmds).
  { intros token rest cmds H. induction H as [|c cmds Hc _ IH]; constructor; [|exact IH].
    intros Heq. assert (Command_canDo c (token :: rest) = true) as Ht.
    { apply Command_canDo_iff. exists rest. rewrite Heq. reflexivity. }
    congruence. }
  split; [|split].
  - intros Hargs. apply dispatch_empty. exact Hargs.
  - intros token rest Hargs Hnone. rewrite Hargs in Hnone.
    apply (dispatch_unknown fuel cli w1 token rest Hargs (Hnames _ _ _ Hnone)).
  - intros token rest before after c Hargs Hcmds Hbefore Hc.
    rewrite Hargs in Hbefore, Hc.
    apply (dispatch_known fuel cli w1 token rest before after c Hargs Hcmds
             (Hnames _ _ _ Hbefore)).
    apply Command_canDo_iff in Hc. destruct Hc as [rest' Hc].
    injection Hc as Hc _. symmetry. exact Hc.
Qed.

(** C6.  Each of the six fatal errors writes one line [Error: <message>]
    with [console.log], that is to standard output, and then exits with the
    status -1, which is not zero.  Nothing behind the error runs: the exit
    inside an option list is the outcome of the command and of [process]. *)
Theorem fatal_errors_report_once_and_exit :
  (forall (errorMsg : string) (cli : Definition_) (w : world),
      reportErrorAndTerminate errorMsg cli w
      = Exited (-1)
          (World (args w) (values w)
             (output w ++ [ConsoleLog ("Error: " +:+ errorMsg)]) (pending w))
      /\ stream_of (ConsoleLog ("Error: " +:+ errorMsg)) = Stdout
      /\ -1 <> 0)
  /\ (forall (e : fatal) (cli : Definition_) (w : world),
        fails e w = reportErrorAndTerminate (message e) cli w)
  /\ (forall (fuel : nat) (cli : Definition_) (w : world),
        args w = [] ->
        route fuel cli w = Some (fails NoCommandSpecified w))
  /\ (forall (fuel : nat) (cli : Definition_) (w : world) (token : string)
             (rest : list string),
        args w = token :: rest ->
        Forall (fun c => cmd_name c <> token) (cli_cmds cli) ->
        route fuel cli w = Some (fails (UnknownCommand token) w))
  /\ (forall (fuel : nat) (cli : Definition_) (options : list Option) (w : world)
             (token : string) (rest : list string),
        args w = token :: rest ->
        JS.startsWith token "-" = true ->
        token <> "--" ->
        Forall (fun o => canDo o (args w) = JS.Ok false) options ->
        scan (S fuel) cli options w = Some (fails (UnknownOption token) w))
  /\ (forall (c : Command) (cli : Definition_) (w : world),
        args w = [] ->
        sv_optional (cmd_showValue c) = false ->
        afterOptions c cli w
        = fails (MissingRequiredValue (sv_name (cmd_showValue c))) w)
  /\ (forall (c : Command) (cli : Definition_) (w : world) (a b : string)
             (rest : list string),
        args w = a :: b :: rest ->
        afterOptions c cli w = fails (TooManyArguments (a :: b :: rest)) w)
  /\ (forall (cli : Definition_) (w : world) (v : string),
        Forall (fun c => cmd_name c <> v) (cli_cmds cli) ->
        helpCmd_action punctuate cli (Some v) w = fails (UnknownHelpTarget v) w)
  /\ (forall (fuel : nat) (c : Command) (cli : Definition_) (w w' : world)
             (code : Z),
        scan fuel cli (cmd_options c) w = Some (Exited code w') ->
        cmdDoNow fuel c cli w = Some (Exited code w'))
  /\ (forall (fuel : nat) (cli : Definition_) (Deno_args : list string)
             (w' : world) (code : Z),
        scan fuel cli (cli_options cli) (World Deno_args ∅ [] [])
        = Some (Exited code w') ->
        run fuel cli Deno_args = Some (Exited code w')).
Proof.
  split; [|split; [|split; [|split; [|split; [|split; [|split; [|split; [|split]]]]]]]].
  - intros errorMsg cli w. split; [reflexivity|]. split; [reflexivity | lia].
  - reflexivity.
  - intros fuel cli w. apply dispatch_empty.
  - intros fuel cli w token rest. apply dispatch_unknown.
  - intros fuel cli options w token rest. apply processOptions_unknown.
  - intros c cli w Hargs Hopt. unfold Command_afterOptions.
    rewrite Hargs, Hopt. reflexivity.
  - intros c cli w a b rest Hargs. unfold Command_afterOptions.
    rewrite Hargs. reflexivity.
  - intros cli w v. apply helpCmd_unknown.
  - intros fuel c cli w w' code H. unfold Command_doNow. rewrite H. reflexivity.
  - intros fuel cli Deno_args w' code H. unfold process. rewrite H. reflexivity.
Qed.

(** C7, what the code does.  With the built-in help flag as the first
    global option and [--help] as the only argument, [process] calls
    [render] for the help document, leaves [Deno.exit(0)] suspended behind
    the [await] of the callback, finds no token left, writes
    [Error: Invalid arguments - no command specified] and exits with the
    status -1.  The suspended exit with status 0 never runs. *)
Theorem help_flag_alone_exits_with_failure :
  forall (name help : string) (others : list Option) (cmds : list Command)
         (fuel : nat),
    let cli := Build_Definition_ name help (helpFlag :: others) cmds in
    run (S (S fuel)) cli ["--help"]
    = Some (Exited (-1)
              (World [] ∅
                 [ Render (show_doc punctuate cli) Stdout;
                   ConsoleLog "Error: Invalid arguments - no command specified" ]
                 [ ExitAfterAwait 0 ])).
Proof. intros name help others cmds fuel cli. reflexivity. Qed.

End Dispatch.

(** ** The statements at work on the sample host *)

(** C2 on the tags [--foo], [-f] and the head token [--foo=bar=baz]: the
    value is everything behind the first [=]. *)
Lemma ValueOption_doNow_stores_value_witness :
  exists (tag0 : string) (others : list string) (n : nat) (key pre post : string),
    ["--foo"; "-f"] = tag0 :: others /\
    tag0 = dashes n +:+ key /\ JS.startsWith key "-" = false /\
    "--foo=bar=baz" = pre +:+ "=" +:+ post /\ lacks "="%char pre /\
    Option_doNow sample_runOpt sample_punctuate
      (ValueOption ["--foo"; "-f"] "The foo") sample_cli
      (World ["--foo=bar=baz"; "run"] ∅ [] [])
    = Normal (World ["run"] (<[key := VString post]> ∅) [] []).
Proof.
  apply (proj1 (ValueOption_doNow_stores_value SampleOpt SampleCmd
                  sample_runOpt sample_punctuate)
           ["--foo"; "-f"] "The foo" sample_cli
           (World ["--foo=bar=baz"; "run"] ∅ [] []) "--foo=bar=baz" ["run"]).
  - reflexivity.
  - reflexivity.
Defined.

(** C10 on the flag [-x], [--extra]. *)
Lemma storing_options_frame_witness :
  exists (tag0 : string) (others : list string) (n : nat) (key : string)
         (v : value) (w' : world),
    ["-x"; "--extra"] = tag0 :: others /\
    tag0 = dashes n +:+ key /\ JS.startsWith key "-" = false /\
    Option_doNow sample_runOpt sample_punctuate
      (FlagOption ["-x"; "--extra"] "Extra output") sample_cli
      (World ["-x"; "run"; "f.txt"] ∅ [] [ExitAfterAwait 0]) = Normal w' /\
    args w' = ["run"; "f.txt"] /\
    values w' = <[key := v]> ∅ /\
    (forall k : string, k <> key -> values w' !! k = (∅ : gmap string value) !! k) /\
    output w' = [] /\
    pending w' = [ExitAfterAwait 0].
Proof.
  apply (storing_options_frame SampleOpt SampleCmd sample_runOpt sample_punctuate
           (FlagOption ["-x"; "--extra"] "Extra output")
           ["-x"; "--extra"] "Extra output" sample_cli
           (World ["-x"; "run"; "f.txt"] ∅ [] [ExitAfterAwait 0]) "-x" ["run"; "f.txt"]).
  - right. reflexivity.
  - reflexivity.
  - reflexivity.
Defined.

(** C1 on the tokens [-x -- -y z]: the terminator is consumed and [-y] stays. *)
Lemma processOptions_postcondition_witness :
  processOptions sample_runOpt sample_punctuate 5 sample_cli (cli_options sample_cli)
    (World ["-x"; "--"; "-y"; "z"] ∅ [] [])
  = Some (Normal (World ["-y"; "z"] (<["x" := VBool true]> ∅) [] []))
  /\ (["-y"; "z"] = []
      \/ (exists token rest,
            ["-y"; "z"] = token :: rest /\ JS.startsWith token "-" = false)
      \/ (exists wm : world,
            reaches sample_runOpt sample_punctuate sample_cli (cli_options sample_cli)
              (World ["-x"; "--"; "-y"; "z"] ∅ [] []) wm /\
            args wm = "--" :: ["-y"; "z"] /\
            <["x" := VBool true]> ∅ = values wm /\ [] = output wm /\
            [] = pending wm)).
Proof.
  split; [reflexivity|].
  refine (processOptions_postcondition SampleOpt SampleCmd sample_runOpt
            sample_punctuate 5 sample_cli (cli_options sample_cli)
            (World ["-x"; "--"; "-y"; "z"] ∅ [] [])
            (World ["-y"; "z"] (<["x" := VBool true]> ∅) [] []) _).
  reflexivity.
Defined.

(** C4 on two value options that both accept [--a=b=c]: the one declared
    first is applied, although the second one has the longer tag. *)
Lemma first_declared_option_wins_witness :
  Option_canDo (ValueOption (OptCallback := SampleOpt) ["--a=b"] "long") ["--a=b=c"]
  = JS.Ok true
  /\ processOptions_body sample_runOpt sample_punctuate sample_cli
       [ValueOption ["--a"] "short"; ValueOption ["--a=b"] "long"]
       (World ["--a=b=c"] ∅ [] [])
     = match
         Option_doNow sample_runOpt sample_punctuate (ValueOption ["--a"] "short")
           sample_cli (World ["--a=b=c"] ∅ [] [])
       with
       | Normal w' => Continue w'
       | other => Leave other
       end
  /\ Option_doNow sample_runOpt sample_punctuate (ValueOption ["--a"] "short")
       sample_cli (World ["--a=b=c"] ∅ [] [])
     = Normal (World [] (<["a" := VString "b=c"]> ∅) [] []).
Proof.
  split; [reflexivity|]. split; [|reflexivity].
  apply (first_declared_option_wins SampleOpt SampleCmd sample_runOpt sample_punctuate
           sample_cli [ValueOption ["--a"] "short"; ValueOption ["--a=b"] "long"]
           [] [ValueOption ["--a=b"] "long"] (ValueOption ["--a"] "short")
           (World ["--a=b=c"] ∅ [] []) "--a=b=c" []).
  - reflexivity.
  - reflexivity.
  - discriminate.
  - reflexivity.
  - constructor.
  - reflexivity.
Defined.

(** C9 as the code has it, on a list whose only callback of the host does
    nothing: three tokens are gone within four iterations. *)
Lemma processOptions_terminates_when_tame_witness :
  (forall w w' : world,
      processOptions_cond w = true ->
      processOptions_body sample_runOpt sample_punctuate sample_cli
        [ helpFlag; FlagOption ["-x"] "Extra output"; ValueOption ["--foo"] "The foo";
          DoOption ["-n"] "Does nothing" (HostOptAction Nop) ] w = Continue w' ->
      (length (args w') < length (args w))%nat)
  /\ (forall (fuel : nat) (w : world),
        (length (args w) < fuel)%nat ->
        exists o : outcome,
          processOptions sample_runOpt sample_punctuate fuel sample_cli
            [ helpFlag; FlagOption ["-x"] "Extra output"; ValueOption ["--foo"] "The foo";
              DoOption ["-n"] "Does nothing" (HostOptAction Nop) ] w = Some o).
Proof.
  apply (processOptions_terminates_when_tame SampleOpt SampleCmd sample_runOpt
           sample_punctuate sample_cli).
  constructor; [exact I|].
  constructor; [exact I|].
  constructor; [exact I|].
  constructor; [|constructor].
  intros cli w w' H. injection H as <-. apply Nat.le_refl.
Defined.

(** C9 as it is stated fails on a callback that puts a token back: on the
    token [-r] the option of the sample host that calls [args.unshift("-r")]
    is applied, the iteration goes back to the loop condition with as many
    tokens as before, and no number of iterations ends the loop. *)
Lemma requeueing_callback_keeps_the_loop_running :
  processOptions_cond (World ["-r"; "run"] ∅ [] []) = true
  /\ processOptions_body sample_runOpt sample_punctuate sample_cli
       (cli_options sample_cli) (World ["-r"; "run"] ∅ [] [])
     = Continue (World ["-r"; "run"] ∅ [] [])
  /\ ~ (length (args (World ["-r"; "run"] ∅ [] []))
        < length (args (World ["-r"; "run"] ∅ [] [])))%nat
  /\ forall fuel : nat,
      processOptions sample_runOpt sample_punctuate fuel sample_cli
        (cli_options sample_cli) (World ["-r"; "run"] ∅ [] []) = None.
Proof.
  split; [reflexivity|]. split; [reflexivity|]. split; [apply Nat.lt_irrefl|].
  induction fuel as [|fuel IH]; [reflexivity|].
  rewrite processOptions_S.
  change (processOptions_cond (World ["-r"; "run"] ∅ [] [])) with true.
  change (processOptions_body sample_runOpt sample_punctuate sample_cli
            (cli_options sample_cli) (World ["-r"; "run"] ∅ [] []))
    with (Continue (World ["-r"; "run"] ∅ [] [])).
  exact IH.
Qed.

(** C3 on the command [run] of the sample host with the tokens [-q f.txt]. *)
Lemma ValueCommand_doNow_cases_witness :
  Command_doNow sample_runOpt sample_runCmd sample_punctuate 5
    (ValueCommand "run" "Runs a file" [FlagOption ["-q"] "Quiet"]
       (Build_ShowValue "File" false "The file to run") (HostCmdAction Echo))
    sample_cli (World ["-q"; "f.txt"] ∅ [] [])
  = Some (Normal (World ["f.txt"] (<["q" := VBool true]> ∅) [ConsoleLog "f.txt"] [])).
Proof.
  refine (proj1 (proj2 (proj2
            (ValueCommand_doNow_cases SampleOpt SampleCmd sample_runOpt sample_runCmd
               sample_punctuate 5
               (ValueCommand "run" "Runs a file" [FlagOption ["-q"] "Quiet"]
                  (Build_ShowValue "File" false "The file to run") (HostCmdAction Echo))
               sample_cli (World ["-q"; "f.txt"] ∅ [] [])
               (World ["f.txt"] (<["q" := VBool true]> ∅) [] []) _))) "f.txt" _);
    reflexivity.
Defined.

(** C5 on the sample host: [help] is declared before [run], and [run f.txt]
    goes to [run]. *)
Lemma process_dispatches_by_exact_name_witness :
  process sample_runOpt sample_runCmd sample_punctuate 5 sample_cli ["-x"; "run"; "f.txt"]
  = Command_doNow sample_runOpt sample_runCmd sample_punctuate 5
      (ValueCommand "run" "Runs a file" [FlagOption ["-q"] "Quiet"]
         (Build_ShowValue "File" false "The file to run") (HostCmdAction Echo))
      sample_cli (World ["f.txt"] (<["x" := VBool true]> ∅) [] []).
Proof.
  refine (proj2 (proj2
            (proj2 (process_dispatches_by_exact_name SampleOpt SampleCmd sample_runOpt
                      sample_runCmd sample_punctuate)
               5%nat sample_cli ["-x"; "run"; "f.txt"]
               (World ["run"; "f.txt"] (<["x" := VBool true]> ∅) [] []) _))
            "run" ["f.txt"] [helpCmd] []
            (ValueCommand "run" "Runs a file" [FlagOption ["-q"] "Quiet"]
               (Build_ShowValue "File" false "The file to run") (HostCmdAction Echo))
            _ _ _ _).
  - reflexivity.
  - reflexivity.
  - reflexivity.
  - constructor; [reflexivity | constructor].
  - reflexivity.
Defined.

(** C6 on the sample host: the token [-zz] is no option of it. *)
Lemma fatal_errors_report_once_and_exit_witness :
  processOptions sample_runOpt sample_punctuate 1 sample_cli (cli_options sample_cli)
    (World ["-zz"; "run"] ∅ [] [])
  = Some (Exited (-1)
            (World ["-zz"; "run"] ∅ [ConsoleLog "Error: Invalid option -zz"] [])).
Proof.
  refine (proj1 (proj2 (proj2 (proj2 (proj2
            (fatal_errors_report_once_and_exit SampleOpt SampleCmd sample_runOpt
               sample_runCmd sample_punctuate)))))
            0%nat sample_cli (cli_options sample_cli) (World ["-zz"; "run"] ∅ [] [])
            "-zz" ["run"] _ _ _ _).
  - reflexivity.
  - reflexivity.
  - discriminate.
  - repeat constructor.
Defined.

(** * Further properties of the code *)

(** ** [dropWhile] with any predicate *)

Section DropWhile.

Variable p : string -> bool.

(** the loop of [dropWhile] stops behind the longest run of accepted characters *)
Lemma dropWhile_loop_run (pre : string) :
  forall (fuel : nat) (a rest : string),
    all_chars p pre = true ->
    stops p rest ->
    (String.length (pre +:+ rest) <= fuel)%nat ->
    dropWhile_loop fuel (a +:+ pre +:+ rest) p (JS.len a) = JS.len a + JS.len pre.
Proof.
  induction pre as [|c pre IH]; intros fuel a rest Hpre Hrest Hfuel.
  - rewrite app_empty_l. change (JS.len "") with 0. rewrite Z.add_0_r.
    destruct fuel as [|fuel]; [reflexivity|]. simpl.
    destruct rest as [|d rest].
    + rewrite len_app. change (JS.len "") with 0.
      rewrite Z.add_0_r, Z.ltb_irrefl. reflexivity.
    + rewrite substring_char_app. simpl in Hrest. rewrite Hrest.
      destruct (JS.len a <? _); reflexivity.
  - simpl in Hpre. apply andb_prop in Hpre. destruct Hpre as [Hc Hpre].
    rewrite app_cons in Hfuel. simpl in Hfuel.
    destruct fuel as [|fuel]; [lia|].
    rewrite app_cons. simpl dropWhile_loop.
    rewrite substring_char_app, Hc.
    assert (Hlt : (JS.len a <? JS.len (a +:+ String c (pre +:+ rest))) = true).
    { apply Z.ltb_lt. rewrite len_app. unfold JS.len at 3. simpl String.length. lia. }
    rewrite Hlt.
    replace (a +:+ String c (pre +:+ rest))
      with ((a +:+ String c "") +:+ pre +:+ rest)
      by (rewrite app_assoc_string; reflexivity).
    replace (JS.len a + 1) with (JS.len (a +:+ String c ""))
      by (rewrite len_app; reflexivity).
    rewrite IH; [|exact Hpre|exact Hrest|lia].
    rewrite len_app. unfold JS.len. simpl String.length. lia.
Qed.

(** every string splits into its longest accepted run and the rest *)
Lemma run_split (s : string) :
  exists pre rest : string,
    s = pre +:+ rest /\ all_chars p pre = true /\ stops p rest.
Proof.
  induction s as [|c s (pre & rest & -> & Hpre & Hrest)].
  - exists "", "". repeat split.
  - destruct (p (String c "")) eqn:E.
    + exists (String c pre), rest. split; [reflexivity|].
      split; [simpl; rewrite E; exact Hpre | exact Hrest].
    + exists "", (String c (pre +:+ rest)). split; [reflexivity|].
      split; [reflexivity | exact E].
Qed.

Lemma dropWhile_run (pre rest : string) :
  all_chars p pre = true -> stops p rest ->
  dropWhile (pre +:+ rest) p = rest.
Proof.
  intros Hpre Hrest. unfold dropWhile.
  pose proof (dropWhile_loop_run pre (String.length (pre +:+ rest)) "" rest
                Hpre Hrest (Nat.le_refl _)) as H.
  rewrite app_empty_l in H. change (JS.len "") with 0 in H. rewrite H, Z.add_0_l.
  destruct pre as [|c pre]; [reflexivity|].
  replace (JS.len (String c pre) =? 0) with false.
  - apply substring_from_app.
  - symmetry. apply Z.eqb_neq. unfold JS.len. simpl String.length. lia.
Qed.

(** X1.  For every predicate and every string, [dropWhile] returns a suffix
    of the string: what it drops in front is made of accepted characters
    only, and what it returns is empty or starts with a rejected character. *)
Theorem dropWhile_drops_longest_accepted_prefix :
  forall s : string,
    exists pre : string,
      s = pre +:+ dropWhile s p /\
      all_chars p pre = true /\
      stops p (dropWhile s p).
Proof.
  intros s. destruct (run_split s) as (pre & rest & -> & Hpre & Hrest).
  exists pre. rewrite (dropWhile_run pre rest Hpre Hrest).
  split; [reflexivity|]. split; assumption.
Qed.

(** X2.  [dropWhile] is idempotent: what it returns has nothing left to drop. *)
Theorem dropWhile_idempotent :
  forall s : string, dropWhile (dropWhile s p) p = dropWhile s p.
Proof.
  intros s. destruct (run_split s) as (pre & rest & -> & Hpre & Hrest).
  rewrite (dropWhile_run pre rest Hpre Hrest).
  apply (dropWhile_run "" rest); [reflexivity | exact Hrest].
Qed.

End DropWhile.

(** ** More on the option classes *)

Section OptionsMore.

Variables OptCallback CmdCallback : Type.
Variable runOpt :
  OptCallback -> Definition_ OptCallback CmdCallback -> world -> outcome.
Variable punctuate : PP.Doc -> list PP.Doc -> list PP.Doc.

Local Abbreviation Option := (Option OptCallback).
Local Abbreviation Definition_ := (Definition_ OptCallback CmdCallback).
Local Abbreviation doNow := (Option_doNow runOpt punctuate).
Local Abbreviation canDo := (@Option_canDo OptCallback).

(** the test [tags.some((t) => t == args[0])] on any token array *)
Lemma exact_tag_some (tags : list string) (args : list string) :
  exists b : bool,
    JS.some
      (fun t => JS.Ok (match head args with
                       | None => false
                       | Some a0 => String.eqb t a0
                       end)) tags = JS.Ok b /\
    (b = true <-> exists token rest, args = token :: rest /\ In token tags).
Proof.
  rewrite some_pure. eexists. split; [reflexivity|].
  destruct args as [|token rest].
  - simpl. split.
    + intros H. apply existsb_exists in H. destruct H as (t & _ & H). discriminate.
    + intros (token & rest & H & _). discriminate.
  - rewrite head_cons. rewrite exact_tag_test. split.
    + intros H. exists token, rest. split; [reflexivity | exact H].
    + intros (token' & rest' & H & Hin). injection H as -> _. exact Hin.
Qed.

(** X3.  [canDo] of a [FlagOption] and of a [DoOption] never throws, on an
    empty token array either, and holds exactly when the array is not empty
    and its head token is one of the declared tags. *)
Theorem exact_tag_canDo_total :
  (forall (tags : list string) (help : string) (args : list string),
      exists b : bool,
        canDo (FlagOption tags help) args = JS.Ok b /\
        (b = true <-> exists token rest, args = token :: rest /\ In token tags))
  /\ (forall (tags : list string) (help : string) (action : OptAction OptCallback)
            (args : list string),
        exists b : bool,
          canDo (DoOption tags help action) args = JS.Ok b /\
          (b = true <-> exists token rest, args = token :: rest /\ In token tags)).
Proof.
  split.
  - intros tags help args. apply exact_tag_some.
  - intros tags help action args. apply exact_tag_some.
Qed.

(** X4.  [canDo] of a [ValueOption] on a token array that is not empty holds
    exactly when the head token is a declared tag, then [=], then anything.
    On an empty token array it throws a [TypeError] as soon as one tag is
    declared, and is false when none is. *)
Theorem ValueOption_canDo_cases :
  (forall (tags : list string) (help : string) (token : string)
          (rest : list string),
      exists b : bool,
        Option_canDo (ValueOption (OptCallback := OptCallback) tags help) (token :: rest) = JS.Ok b /\
        (b = true <->
         exists tag r : string, In tag tags /\ token = tag +:+ "=" +:+ r))
  /\ (forall (tag : string) (tags : list string) (help : string),
        Option_canDo (ValueOption (OptCallback := OptCallback) (tag :: tags) help) [] = JS.TypeError)
  /\ (forall help : string, Option_canDo (ValueOption (OptCallback := OptCallback) [] help) [] = JS.Ok false).
Proof.
  split; [|split; reflexivity].
  intros tags help token rest. unfold Option_canDo. rewrite head_cons.
  rewrite some_pure. eexists. split; [reflexivity|].
  rewrite existsb_exists. split.
  - intros (tag & Hin & H). apply startsWith_inv in H. destruct H as [r ->].
    exists tag, r. split; [exact Hin | apply app_assoc_string].
  - intros (tag & r & Hin & ->). exists tag. split; [exact Hin|].
    rewrite <- app_assoc_string. apply startsWith_app.
Qed.

(** X5.  The later write wins.  Two options whose first tags differ only in
    the number of leading dashes share one key of the value store: after a
    [ValueOption] is applied behind a [ValueOption] or a [FlagOption] of the
    same key, the store is what the second one alone would have left. *)
Theorem later_write_wins :
  forall (n m : nat) (key : string) (others1 others2 : list string)
         (help1 help2 : string) (cli : Definition_) (w : world)
         (token1 pre post : string) (rest : list string),
    JS.startsWith key "-" = false ->
    lacks "="%char pre ->
    args w = token1 :: (pre +:+ "=" +:+ post) :: rest ->
    (exists w1 : world,
        doNow (FlagOption ((dashes n +:+ key) :: others1) help1) cli w = Normal w1 /\
        doNow (ValueOption ((dashes m +:+ key) :: others2) help2) cli w1
        = Normal (World rest (<[key := VString post]> (values w))
                    (output w) (pending w)))
    /\ (forall pre1 post1 : string,
          token1 = pre1 +:+ "=" +:+ post1 ->
          lacks "="%char pre1 ->
          exists w1 : world,
            doNow (ValueOption ((dashes n +:+ key) :: others1) help1) cli w
            = Normal w1 /\
            doNow (ValueOption ((dashes m +:+ key) :: others2) help2) cli w1
            = Normal (World rest (<[key := VString post]> (values w))
                        (output w) (pending w))).
Proof.
  intros n m key others1 others2 help1 help2 cli w token1 pre post rest
    Hkey Hpre Hargs.
  split.
  - set (w1 := World ((pre +:+ "=" +:+ post) :: rest) (<[key := VBool true]> (values w))
                 (output w) (pending w)).
    exists w1. split.
    + apply (FlagOption_doNow_at _ _ runOpt punctuate others1 help1 cli w n key
               token1 _ Hkey Hargs).
    + rewrite (ValueOption_doNow_at _ _ runOpt punctuate others2 help2 cli w1 m key
                 pre post rest Hkey Hpre eq_refl).
      simpl. rewrite insert_insert_eq. reflexivity.
  - intros pre1 post1 -> Hpre1.
    set (w1 := World ((pre +:+ "=" +:+ post) :: rest)
                 (<[key := VString post1]> (values w)) (output w) (pending w)).
    exists w1. split.
    + apply (ValueOption_doNow_at _ _ runOpt punctuate others1 help1 cli w n key
               pre1 post1 _ Hkey Hpre1 Hargs).
    + rewrite (ValueOption_doNow_at _ _ runOpt punctuate others2 help2 cli w1 m key
                 pre post rest Hkey Hpre eq_refl).
      simpl. rewrite insert_insert_eq. reflexivity.
Qed.

End OptionsMore.

(** ** More on the option-list processor *)

Section ScanningMore.

Variables OptCallback CmdCallback : Type.
Variable runOpt :
  OptCallback -> Definition_ OptCallback CmdCallback -> world -> outcome.
Variable punctuate : PP.Doc -> list PP.Doc -> list PP.Doc.

Local Abbreviation Option := (Option OptCallback).
Local Abbreviation Definition_ := (Definition_ OptCallback CmdCallback).
Local Abbreviation canDo := (@Option_canDo OptCallback).
Local Abbreviation doNow := (Option_doNow runOpt punctuate).
Local Abbreviation body := (processOptions_body runOpt punctuate).
Local Abbreviation scan := (processOptions runOpt punctuate).

(** on a token array that is not empty no [canDo] throws *)
Lemma canDo_nonempty_Ok (o : Option) (token : string) (rest : list string) :
  exists b : bool, canDo o (token :: rest) = JS.Ok b.
Proof.
  destruct o as [tags help|tags help|tags help action]; unfold Option_canDo;
    rewrite head_cons, some_pure; eexists; reflexivity.
Qed.

Lemma find_total {A : Type} (q : A -> JS.res bool) (arr : list A) :
  (forall x, exists b, q x = JS.Ok b) -> exists r, JS.find q arr = JS.Ok r.
Proof.
  intros Hq. induction arr as [|x arr [r IH]]; simpl; [eexists; reflexivity|].
  destruct (Hq x) as [[|] ->]; eexists; [reflexivity | exact IH].
Qed.

Lemma find_none_inv {A : Type} (q : A -> JS.res bool) (arr : list A) :
  JS.find q arr = JS.Ok None -> Forall (fun y => q y = JS.Ok false) arr.
Proof.
  induction arr as [|x arr IH]; simpl; [constructor|].
  destruct (q x) as [[|]|] eqn:E; try discriminate.
  intros H. constructor; [exact E | exact (IH H)].
Qed.

(** what an option without a callback of the host does to an accepted head
    token: the token is gone, no key of the store is lost, and the output
    grows by the [render] call of the help flag or not at all *)
Lemma doNow_hostless_step (o : Option) (cli : Definition_) (w : world)
    (token : string) (rest : list string) :
  hostless o ->
  args w = token :: rest ->
  canDo o (args w) = JS.Ok true ->
  exists w1 : world,
    doNow o cli w = Normal w1 /\
    args w1 = rest /\
    (forall k : string, is_Some (values w !! k) -> is_Some (values w1 !! k)) /\
    (output w1 = output w \/
     output w1 = output w ++ [Render (show_doc punctuate cli) Stdout]).
Proof.
  intros Hhost Hargs Hcan.
  assert (Hins : forall (key : string) (v : value) (k : string),
             is_Some (values w !! k) -> is_Some (<[key := v]> (values w) !! k)).
  { intros key v k Hk. destruct (decide (key = k)) as [->|Hne].
    - rewrite lookup_insert_eq. eexists; reflexivity.
    - rewrite lookup_insert_ne by exact Hne. exact Hk. }
  destruct o as [tags help|tags help|tags help [|f]].
  - destruct (ValueOption_doNow_accepted _ _ runOpt punctuate tags help cli w token
                rest Hargs Hcan)
      as (tag0 & others & n & key & pre & post & _ & _ & _ & _ & _ & Hdo).
    eexists. split; [exact Hdo|]. simpl.
    split; [reflexivity|]. split; [apply Hins | left; reflexivity].
  - rewrite Hargs, FlagOption_canDo_eq in Hcan. injection Hcan as Hcan.
    destruct tags as [|tag0 others]; [discriminate|].
    destruct (dashes_split tag0) as (n & key & -> & Hkey).
    eexists. split.
    { apply (FlagOption_doNow_at _ _ runOpt punctuate others help cli w n key token
               rest Hkey Hargs). }
    simpl. split; [reflexivity|]. split; [apply Hins | left; reflexivity].
  - eexists. split; [reflexivity|]. simpl. rewrite Hargs. simpl.
    split; [reflexivity|]. split; [tauto | right; reflexivity].
  - destruct Hhost.
Qed.

(** an accepted option throws only if its callback of the host does *)
Lemma doNow_accepted_not_thrown (o : Option) (cli : Definition_) (w : world)
    (token : string) (rest : list string) :
  quiet runOpt o ->
  args w = token :: rest ->
  canDo o (args w) = JS.Ok true ->
  forall w' : world, doNow o cli w <> Thrown w'.
Proof.
  intros Hquiet Hargs Hcan w'.
  destruct o as [tags help|tags help|tags help [|f]].
  - destruct (doNow_hostless_step (ValueOption tags help) cli w token rest I Hargs Hcan)
      as (w1 & -> & _). discriminate.
  - destruct (doNow_hostless_step (FlagOption tags help) cli w token rest I Hargs Hcan)
      as (w1 & -> & _). discriminate.
  - discriminate.
  - apply Hquiet.
Qed.

(** the lookup of the loop never throws *)
Lemma body_find_Ok (options : list Option) (w : world) :
  processOptions_cond w = true ->
  exists r, JS.find (fun o => canDo o (args w)) options = JS.Ok r.
Proof.
  intros Hcond. destruct (cond_true_inv _ Hcond) as (token & rest & Hargs & _).
  rewrite Hargs. apply find_total. intros o. apply canDo_nonempty_Ok.
Qed.

(** an iteration that goes on with tame options leaves fewer tokens *)
Lemma body_Continue_shrinks (cli : Definition_) (options : list Option)
    (w w' : world) :
  Forall (tame runOpt) options ->
  processOptions_cond w = true ->
  body cli options w = Continue w' ->
  (length (args w') < length (args w))%nat.
Proof.
  intros Htame Hcond Hbody.
  destruct (cond_true_inv _ Hcond) as (token & rest & Hargs & _).
  destruct (body_Continue_inv _ _ _ _ _ _ _ _ Hbody) as (o & Hin & _ & Hdo).
  rewrite Forall_forall in Htame. apply list_elem_of_In in Hin.
  pose proof (doNow_shrinks _ _ _ _ o cli w w' token rest (Htame o Hin) Hargs Hdo).
  rewrite Hargs. simpl. lia.
Qed.

(** with tame options, as much fuel as tokens plus one lets the loop end *)
Lemma scan_enough_fuel (cli : Definition_) (options : list Option) :
  Forall (tame runOpt) options ->
  forall (fuel : nat) (w : world),
    (length (args w) < fuel)%nat ->
    exists o : outcome, scan fuel cli options w = Some o.
Proof.
  intros Htame. induction fuel as [|fuel IH]; intros w Hlen; [lia|].
  rewrite processOptions_S.
  destruct (processOptions_cond w) eqn:Hcond; [|eexists; reflexivity].
  destruct (processOptions_body _ _ cli options w) as [w1|w1|o] eqn:Hbody;
    try (eexists; reflexivity).
  apply IH. pose proof (body_Continue_shrinks _ _ _ _ Htame Hcond Hbody). lia.
Qed.

(** with tame options the loop never returns more tokens than it got *)
Lemma scan_tame_length (cli : Definition_) (options : list Option) :
  Forall (tame runOpt) options ->
  forall (fuel : nat) (w w' : world),
    scan fuel cli options w = Some (Normal w') ->
    (length (args w') <= length (args w))%nat.
Proof.
  intros Htame. induction fuel as [|fuel IH]; intros w w' H; [discriminate|].
  rewrite processOptions_S in H.
  destruct (processOptions_cond w) eqn:Hcond; [|injection H as <-; lia].
  destruct (processOptions_body _ _ cli options w) as [w1|w1|o] eqn:Hbody.
  - injection H as <-. apply body_Break_inv in Hbody. destruct Hbody as [-> _].
    simpl. lia.
  - pose proof (body_Continue_shrinks _ _ _ _ Htame Hcond Hbody).
    pose proof (IH _ _ H). lia.
  - injection H as ->. exfalso.
    exact (body_Leave_inv _ _ _ _ _ _ _ _ Hbody w' eq_refl).
Qed.

(** X6.  The built-in help flag does not stop the scan.  On a head token [-h]
    or [--help], with [helpFlag] declared first, the loop consumes the token,
    calls [render] for the help document, leaves [Deno.exit(0)] suspended,
    and goes on with the tokens behind it. *)
Theorem help_flag_does_not_stop_the_scan :
  forall (fuel : nat) (cli : Definition_) (others : list Option) (w : world)
         (token : string) (rest : list string),
    args w = token :: rest ->
    token = "-h" \/ token = "--help" ->
    scan (S fuel) cli (helpFlag :: others) w
    = scan fuel cli (helpFlag :: others)
        (World rest (values w)
           (output w ++ [Render (show_doc punctuate cli) Stdout])
           (pending w ++ [ExitAfterAwait 0])).
Proof.
  intros fuel cli others w token rest Hargs Htoken.
  rewrite processOptions_S. unfold processOptions_cond, processOptions_body.
  rewrite Hargs, head_cons.
  destruct Htoken as [-> | ->]; simpl; unfold helpFlag_action, splice01;
    simpl; rewrite Hargs; reflexivity.
Qed.

(** what one iteration over options without callbacks of the host consumes *)
Lemma body_hostless_step (cli : Definition_) (options : list Option) (w w1 : world) :
  Forall hostless options ->
  processOptions_cond w = true ->
  body cli options w = Break w1 \/ body cli options w = Continue w1 ->
  exists token : string,
    args w = token :: args w1 /\ JS.startsWith token "-" = true /\
    (forall k : string, is_Some (values w !! k) -> is_Some (values w1 !! k)) /\
    (output w1 = output w \/
     output w1 = output w ++ [Render (show_doc punctuate cli) Stdout]).
Proof.
  intros Hhost Hcond Hbody.
  destruct (cond_true_inv _ Hcond) as (token & rest & Hargs & Hdash).
  destruct Hbody as [Hbody | Hbody].
  - apply body_Break_inv in Hbody. destruct Hbody as (Ha & Hv & Ho & _).
    exists "--". split; [exact Ha|]. split; [reflexivity|].
    split; [intros k; rewrite Hv; tauto | left; exact Ho].
  - destruct (body_Continue_inv _ _ _ _ _ _ _ _ Hbody) as (o & Hin & Hcan & Hdo).
    rewrite Forall_forall in Hhost. apply list_elem_of_In in Hin.
    destruct (doNow_hostless_step o cli w token rest (Hhost o Hin) Hargs Hcan)
      as (w2 & Hdo2 & Ha & Hv & Ho).
    rewrite Hdo in Hdo2. injection Hdo2 as <-.
    exists token. split; [rewrite Hargs, Ha; reflexivity|].
    split; [exact Hdash|]. split; assumption.
Qed.

(** X7.  Over options without callbacks of the host, a scan that returns has
    consumed a prefix of the token array, left to right, made of tokens that
    start with a dash; what it returns is the untouched rest.  No key of the
    value store is lost, and all it has written to the output are [render]
    calls of the help document. *)
Theorem scan_consumes_a_dashed_prefix :
  forall (cli : Definition_) (options : list Option),
    Forall hostless options ->
    forall (fuel : nat) (w w' : world),
      scan fuel cli options w = Some (Normal w') ->
      exists (consumed : list string) (added : list event),
        args w = consumed ++ args w' /\
        Forall (fun t => JS.startsWith t "-" = true) consumed /\
        (forall k : string, is_Some (values w !! k) -> is_Some (values w' !! k)) /\
        output w' = output w ++ added /\
        Forall (fun e => e = Render (show_doc punctuate cli) Stdout) added.
Proof.
  intros cli options Hhost.
  induction fuel as [|fuel IH]; intros w w' H; [discriminate|].
  rewrite processOptions_S in H.
  destruct (processOptions_cond w) eqn:Hcond.
  - destruct (processOptions_body _ _ cli options w) as [w1|w1|o] eqn:Hbody.
    + injection H as <-.
      destruct (body_hostless_step cli options w w1 Hhost Hcond (or_introl Hbody))
        as (token & Ha & Hdash & Hv & Ho).
      exists [token]. destruct Ho as [Ho | Ho].
      * exists []. rewrite Ha, Ho, app_nil_r.
        repeat split; try assumption; repeat constructor; assumption.
      * exists [Render (show_doc punctuate cli) Stdout]. rewrite Ha, Ho.
        repeat split; try assumption; repeat constructor; assumption.
    + destruct (body_hostless_step cli options w w1 Hhost Hcond (or_intror Hbody))
        as (token & Ha & Hdash & Hv & Ho).
      destruct (IH _ _ H) as (consumed & added & Ha' & Hc & Hv' & Ho' & Hadded).
      exists (token :: consumed).
      destruct Ho as [Ho | Ho].
      * exists added. rewrite Ha, Ha', Ho', Ho.
        split; [reflexivity|]. split; [constructor; assumption|].
        split; [intros k Hk; apply Hv', Hv, Hk|]. split; [reflexivity | exact Hadded].
      * exists (Render (show_doc punctuate cli) Stdout :: added).
        rewrite Ha, Ha', Ho', Ho, <- app_assoc.
        split; [reflexivity|]. split; [constructor; assumption|].
        split; [intros k Hk; apply Hv', Hv, Hk|].
        split; [reflexivity | constructor; [reflexivity | exact Hadded]].
    + injection H as ->. exfalso.
      exact (body_Leave_inv _ _ _ _ _ _ _ _ Hbody w' eq_refl).
  - injection H as <-. exists [], []. rewrite app_nil_r.
    repeat split; try constructor; tauto.
Qed.

(** X8.  Over options without callbacks of the host, the only way a scan ends
    the process is the unknown option: the status is -1, the offending
    token is still the head of the token array, it starts with a dash, is
    not the terminator, no option of the list accepts it, and the last line
    written is [Error: Invalid option <token>]. *)
Theorem scan_exits_only_on_an_unknown_option :
  forall (cli : Definition_) (options : list Option),
    Forall hostless options ->
    forall (fuel : nat) (w w' : world) (code : Z),
      scan fuel cli options w = Some (Exited code w') ->
      code = -1 /\
      exists (token : string) (rest : list string) (before : list event),
        args w' = token :: rest /\
        JS.startsWith token "-" = true /\ token <> "--" /\
        Forall (fun o => canDo o (token :: rest) = JS.Ok false) options /\
        output w' = before ++ [ConsoleLog ("Error: Invalid option " +:+ token)].
Proof.
  intros cli options Hhost.
  induction fuel as [|fuel IH]; intros w w' code H; [discriminate|].
  rewrite processOptions_S in H.
  destruct (processOptions_cond w) eqn:Hcond; [|discriminate].
  destruct (processOptions_body _ _ cli options w) as [w1|w1|o] eqn:Hbody;
    [discriminate | exact (IH _ _ _ H) |].
  injection H as ->.
  destruct (cond_true_inv _ Hcond) as (token & rest & Hargs & Hdash).
  destruct (String.eqb token "--") eqn:E.
  { apply String.eqb_eq in E. subst token. unfold processOptions_body in Hbody.
    rewrite Hargs, head_cons in Hbody. discriminate. }
  apply String.eqb_neq in E.
  rewrite (body_no_terminator _ _ runOpt punctuate cli options w token rest Hargs E)
    in Hbody.
  destruct (JS.find _ options) as [[o|]|] eqn:Hfind.
  - exfalso. apply find_some_inv in Hfind. destruct Hfind as [Hin Hcan].
    rewrite Forall_forall in Hhost. apply list_elem_of_In in Hin.
    destruct (doNow_hostless_step o cli w token rest (Hhost o Hin) Hargs Hcan)
      as (w2 & Hdo & _).
    rewrite Hdo in Hbody. discriminate.
  - injection Hbody as <- <-. split; [reflexivity|].
    exists token, rest, (output w). simpl. rewrite Hargs.
    split; [reflexivity|]. split; [exact Hdash|]. split; [exact E|].
    split; [|reflexivity].
    apply find_none_inv in Hfind. rewrite Hargs in Hfind. exact Hfind.
  - discriminate.
Qed.

(** the scan throws only what a callback of the host throws *)
Lemma scan_quiet_not_thrown :
  forall (cli : Definition_) (options : list Option),
    Forall (quiet runOpt) options ->
    forall (fuel : nat) (w w' : world),
      scan fuel cli options w <> Some (Thrown w').
Proof.
  intros cli options Hquiet.
  induction fuel as [|fuel IH]; intros w w' H; [discriminate|].
  rewrite processOptions_S in H.
  destruct (processOptions_cond w) eqn:Hcond; [|discriminate].
  destruct (processOptions_body _ _ cli options w) as [w1|w1|o] eqn:Hbody;
    [discriminate | exact (IH _ _ H) |].
  injection H as ->.
  destruct (cond_true_inv _ Hcond) as (token & rest & Hargs & Hdash).
  unfold processOptions_body in Hbody.
  destruct (match head (args w) with Some a0 => String.eqb a0 "--" | None => false end);
    [discriminate|].
  destruct (body_find_Ok options w Hcond) as [r Hfind]. rewrite Hfind in Hbody.
  destruct r as [o|].
  - apply find_some_inv in Hfind. destruct Hfind as [Hin Hcan].
    rewrite Forall_forall in Hquiet. apply list_elem_of_In in Hin.
    pose proof (doNow_accepted_not_thrown o cli w token rest (Hquiet o Hin) Hargs Hcan)
      as Hnt.
    destruct (Option_doNow _ _ o cli w) eqn:Hdo; try discriminate.
    injection Hbody as <-. exact (Hnt w0 eq_refl).
  - simpl in Hbody. discriminate.
Qed.

End ScanningMore.

(** ** More on the dispatcher and the commands *)

Section DispatchMore.

Variables OptCallback CmdCallback : Type.
Variable runOpt :
  OptCallback -> Definition_ OptCallback CmdCallback -> world -> outcome.
Variable runCmd :
  CmdCallback -> Definition_ OptCallback CmdCallback -> option string ->
  world -> outcome.
Variable punctuate : PP.Doc -> list PP.Doc -> list PP.Doc.

Local Abbreviation Option := (Option OptCallback).
Local Abbreviation Command := (Command OptCallback CmdCallback).
Local Abbreviation Definition_ := (Definition_ OptCallback CmdCallback).
Local Abbreviation scan := (processOptions runOpt punctuate).
Local Abbreviation call := (CmdAction_call runCmd punctuate).
Local Abbreviation afterOptions := (Command_afterOptions runCmd punctuate).
Local Abbreviation cmdDoNow := (Command_doNow runOpt runCmd punctuate).
Local Abbreviation route := (dispatch runOpt runCmd punctuate).
Local Abbreviation run := (process runOpt runCmd punctuate).

(** the lookup of a command never throws *)
Lemma find_pure_Ok {A : Type} (q : A -> bool) (arr : list A) :
  exists r, JS.find (fun x => JS.Ok (q x)) arr = JS.Ok r.
Proof. apply find_total. intros x. eexists. reflexivity. Qed.

(** the dispatcher either exits or runs a declared command on the tokens
    behind its name *)
Lemma dispatch_cases (fuel : nat) (cli : Definition_) (w : world) :
  (exists (code : Z) (w' : world), route fuel cli w = Some (Exited code w'))
  \/ (exists c : Command,
        In c (cli_cmds cli) /\
        route fuel cli w = cmdDoNow fuel c cli (splice01 w)).
Proof.
  unfold dispatch. destruct (args w) as [|token rest] eqn:Hargs.
  - left. eexists _, _. reflexivity.
  - destruct (find_pure_Ok (fun c : Command => Command_canDo c (token :: rest))
                (cli_cmds cli)) as [r Hfind].
    rewrite Hfind. destruct r as [c|].
    + right. exists c. split; [|reflexivity].
      apply find_some_inv in Hfind. exact (proj1 Hfind).
    + left. eexists _, _. reflexivity.
Qed.

(** the [help] command on a declared name *)
Lemma helpCmd_known (cli : Definition_) (w : world) (v : string)
    (before after : list Command) (c : Command) :
  cli_cmds cli = before ++ c :: after ->
  Forall (fun c' => cmd_name c' <> v) before ->
  cmd_name c = v ->
  helpCmd_action punctuate cli (Some v) w
  = Normal (emit (Render (Command_show punctuate c) Stdout) w).
Proof.
  intros Hcmds Hbefore Hc. unfold helpCmd_action. rewrite Hcmds.
  rewrite (find_first (fun c' : Command => JS.Ok (String.eqb (cmd_name c') v))
             before after c).
  - reflexivity.
  - clear Hcmds. induction Hbefore as [|c' before Hc' _ IH]; constructor; [|exact IH].
    f_equal. apply String.eqb_neq. exact Hc'.
  - f_equal. apply String.eqb_eq. exact Hc.
Qed.

(** X9.  [process] terminates.  When no callback of the global options and of
    the options of the commands leaves the token array longer than it found
    it, [process] ends, with an exit, an exception or a return, within a
    number of loop iterations that exceeds the number of arguments. *)
Theorem process_terminates_when_tame :
  forall (cli : Definition_) (Deno_args : list string) (fuel : nat),
    Forall (tame runOpt) (cli_options cli) ->
    Forall (fun c => Forall (tame runOpt) (cmd_options c)) (cli_cmds cli) ->
    (length Deno_args < fuel)%nat ->
    exists o : outcome, run fuel cli Deno_args = Some o.
Proof.
  intros cli Deno_args fuel Hopts Hcmds Hfuel. unfold process.
  destruct (scan_enough_fuel _ _ runOpt punctuate cli (cli_options cli) Hopts fuel
              (World Deno_args ∅ [] []) Hfuel) as [o Ho].
  rewrite Ho. destruct o as [w1|code w1|w1]; try (eexists; reflexivity).
  pose proof (scan_tame_length _ _ runOpt punctuate cli (cli_options cli) Hopts
                fuel _ _ Ho) as Hlen. simpl in Hlen.
  destruct (dispatch_cases fuel cli w1) as [(code & w' & ->) | (c & Hin & ->)];
    [eexists; reflexivity|].
  rewrite Forall_forall in Hcmds. apply list_elem_of_In in Hin.
  destruct (scan_enough_fuel _ _ runOpt punctuate cli (cmd_options c) (Hcmds c Hin)
              fuel (splice01 w1)) as [o' Ho'].
  { simpl. destruct (args w1); simpl in *; lia. }
  unfold Command_doNow. rewrite Ho'. eexists. reflexivity.
Qed.

(** X10.  [process] returns only through the action of a declared command:
    whenever it returns, the action of one of the commands was called as the
    last step and returned, with no token left and an absent value (which
    takes an optional value) or with exactly one token left as the value.
    Every other path ends the process. *)
Theorem process_returns_only_through_a_command :
  forall (fuel : nat) (cli : Definition_) (Deno_args : list string) (w : world),
    run fuel cli Deno_args = Some (Normal w) ->
    exists (c : Command) (value : option string) (w1 : world),
      In c (cli_cmds cli) /\
      call (cmd_action c) cli value w1 = Normal w /\
      match value with
      | None => args w1 = [] /\ sv_optional (cmd_showValue c) = true
      | Some v => args w1 = [v]
      end.
Proof.
  intros fuel cli Deno_args w H. unfold process in H.
  destruct (scan fuel cli (cli_options cli) _) as [[w0|code w0|w0]|]; try discriminate.
  destruct (dispatch_cases fuel cli w0) as [(code & w' & Hd) | (c & Hin & Hd)];
    rewrite Hd in H; [discriminate|].
  unfold Command_doNow in H.
  destruct (scan fuel cli (cmd_options c) _) as [[w1|code w1|w1]|]; try discriminate.
  simpl in H. injection H as H. unfold Command_afterOptions in H.
  destruct (args w1) as [|a [|b rest]] eqn:Hargs.
  - destruct (sv_optional (cmd_showValue c)) eqn:Hopt; [|discriminate].
    exists c, None, w1. repeat split; assumption.
  - exists c, (Some a), w1. repeat split; assumption.
  - discriminate.
Qed.

(** X11.  A leading terminator switches the global options off: after [--]
    the next token is taken for the name of a command, whatever the global
    options are.  With nothing behind [--] no command is specified, and a
    token that names no command is an invalid command even when a global
    option would accept it. *)
Theorem leading_terminator_skips_global_options :
  forall (fuel : nat) (cli : Definition_),
    (forall rest : list string,
        run (S fuel) cli ("--" :: rest) = route (S fuel) cli (World rest ∅ [] []))
    /\ run (S fuel) cli ["--"] = Some (fails NoCommandSpecified (World [] ∅ [] []))
    /\ (forall (token : string) (rest : list string),
          Forall (fun c => cmd_name c <> token) (cli_cmds cli) ->
          run (S fuel) cli ("--" :: token :: rest)
          = Some (fails (UnknownCommand token) (World (token :: rest) ∅ [] []))).
Proof.
  intros fuel cli.
  assert (H : forall rest : list string,
             run (S fuel) cli ("--" :: rest) = route (S fuel) cli (World rest ∅ [] [])).
  { intros rest. reflexivity. }
  split; [exact H|]. split.
  - rewrite H. apply dispatch_empty. reflexivity.
  - intros token rest Hnone. rewrite H.
    apply (dispatch_unknown _ _ runOpt runCmd punctuate (S fuel) cli _ token rest);
      [reflexivity | exact Hnone].
Qed.

(** X12.  Behind the name of a command the terminator lets any token through
    as the value: on the tokens [--] and [v] the action is called with [v],
    whether or not [v] starts with a dash and whatever options the command
    declares. *)
Theorem terminator_passes_any_value :
  forall (fuel : nat) (c : Command) (cli : Definition_) (w : world) (v : string),
    args w = ["--"; v] ->
    cmdDoNow (S fuel) c cli w = Some (call (cmd_action c) cli (Some v) (set_args [v] w)).
Proof.
  intros fuel c cli w v Hargs. unfold Command_doNow.
  rewrite processOptions_S. unfold processOptions_cond, processOptions_body.
  rewrite Hargs, head_cons. simpl.
  unfold Command_afterOptions, splice01. rewrite Hargs. reflexivity.
Qed.

(** X13.  The value of a command has to come last.  The scan of the options
    of a command stops at the first token without a leading dash; when
    another token follows it, whatever it is, the command reports
    [Too many arguments] with all the tokens left and the process exits. *)
Theorem value_must_come_last :
  forall (fuel : nat) (c : Command) (cli : Definition_) (w : world)
         (v next : string) (rest : list string),
    args w = v :: next :: rest ->
    JS.startsWith v "-" = false ->
    cmdDoNow (S fuel) c cli w
    = Some (fails (TooManyArguments (v :: next :: rest)) w).
Proof.
  intros fuel c cli w v next rest Hargs Hv. unfold Command_doNow.
  rewrite processOptions_S. unfold processOptions_cond. rewrite Hargs, Hv.
  simpl. unfold Command_afterOptions. rewrite Hargs. reflexivity.
Qed.

(** X14.  The built-in help command, declared first.  On the only argument
    [help], [process] calls [render] for the help document of the whole
    program and returns, with no exit.  On [help] and the name of a declared
    command that does not start with a dash, it calls [render] for the usage
    block of the first command of that name and returns; the name is still
    in the token array. *)
Theorem help_command_renders_and_returns :
  forall (fuel : nat) (name help : string) (options : list Option)
         (others : list Command),
    let cli := Build_Definition_ name help options (helpCmd :: others) in
    run (S fuel) cli ["help"]
    = Some (Normal (World [] ∅ [Render (show_doc punctuate cli) Stdout] []))
    /\ (forall (v : string) (before after : list Command) (c : Command),
          helpCmd :: others = before ++ c :: after ->
          Forall (fun c' => cmd_name c' <> v) before ->
          cmd_name c = v ->
          JS.startsWith v "-" = false ->
          run (S fuel) cli ["help"; v]
          = Some (Normal (World [v] ∅ [Render (Command_show punctuate c) Stdout] []))).
Proof.
  intros fuel name help options others cli. split; [reflexivity|].
  intros v before after c Hcmds Hbefore Hc Hv.
  assert (Hrun : run (S fuel) cli ["help"; v]
                 = Some (helpCmd_action punctuate cli (Some v) (World [v] ∅ [] []))).
  { rewrite (process_after_options _ _ runOpt runCmd punctuate (S fuel) cli
               ["help"; v] (World ["help"; v] ∅ [] []) eq_refl).
    rewrite (dispatch_known _ _ runOpt runCmd punctuate (S fuel) cli
               (World ["help"; v] ∅ [] []) "help" [v] [] others helpCmd
               eq_refl eq_refl (List.Forall_nil _) eq_refl).
    apply (Command_doNow_after_options _ _ runOpt runCmd punctuate (S fuel) helpCmd cli
             (World [v] ∅ [] []) (World [v] ∅ [] [])).
    rewrite processOptions_S. unfold processOptions_cond.
    cbn [args]. rewrite Hv. reflexivity. }
  rewrite Hrun.
  rewrite (helpCmd_known cli (World [v] ∅ [] []) v before after c Hcmds Hbefore Hc).
  reflexivity.
Qed.

(** a quiet command throws nothing once its options are processed *)
Lemma afterOptions_not_thrown (c : Command) (cli : Definition_) (w w' : world) :
  quiet_cmd runOpt runCmd c -> afterOptions c cli w <> Thrown w'.
Proof.
  intros [_ Hact].
  assert (Hcall : forall value : option string,
             call (cmd_action c) cli value w <> Thrown w').
  { intros value. unfold CmdAction_call. destruct (cmd_action c) as [|f].
    - unfold helpCmd_action. destruct value as [v|]; [|discriminate].
      destruct (find_pure_Ok (fun c' : Command => String.eqb (cmd_name c') v)
                  (cli_cmds cli)) as [[c'|] ->]; discriminate.
    - apply Hact. }
  unfold Command_afterOptions. destruct (args w) as [|a [|b rest]].
  - destruct (sv_optional (cmd_showValue c)); [apply Hcall | discriminate].
  - apply Hcall.
  - discriminate.
Qed.

(** X15.  The engine throws only what a callback of the host throws.  When
    the callbacks of the listed options never throw, no scan of the list ends
    in an exception; when that holds of the global options, of the options of
    every command and of the callbacks of the commands, [process] never ends
    in an exception.  The [TypeError]s of [canDo] and [doNow] on an empty
    token array or an empty list of tags are out of reach of the engine. *)
Theorem engine_never_throws_by_itself :
  (forall (cli : Definition_) (options : list Option),
      Forall (quiet runOpt) options ->
      forall (fuel : nat) (w w' : world),
        scan fuel cli options w <> Some (Thrown w'))
  /\ (forall (cli : Definition_),
        Forall (quiet runOpt) (cli_options cli) ->
        Forall (quiet_cmd runOpt runCmd) (cli_cmds cli) ->
        forall (fuel : nat) (Deno_args : list string) (w' : world),
          run fuel cli Deno_args <> Some (Thrown w')).
Proof.
  split; [apply scan_quiet_not_thrown|].
  intros cli Hopts Hcmds fuel Deno_args w' H. unfold process in H.
  destruct (scan fuel cli (cli_options cli) _) as [[w0|code w0|w0]|] eqn:Hscan;
    try discriminate.
  - destruct (dispatch_cases fuel cli w0) as [(code & w1 & Hd) | (c & Hin & Hd)];
      rewrite Hd in H; [discriminate|].
    rewrite Forall_forall in Hcmds. apply list_elem_of_In in Hin.
    pose proof (Hcmds c Hin) as Hc.
    unfold Command_doNow in H.
    destruct (scan fuel cli (cmd_options c) _) as [[w1|code w1|w1]|] eqn:Hscan';
      try discriminate.
    + simpl in H. injection H as H.
      exact (afterOptions_not_thrown c cli w1 w' Hc H).
    + exact (scan_quiet_not_thrown _ _ runOpt punctuate cli (cmd_options c) (proj1 Hc)
               fuel _ w1 Hscan').
  - exact (scan_quiet_not_thrown _ _ runOpt punctuate cli (cli_options cli) Hopts
             fuel _ w0 Hscan).
Qed.

(** X16.  The global options end at the name of the command.  A token behind
    the name that starts with a dash is looked up in the options of the
    command only: when none of them accepts it, [process] reports
    [Invalid option <token>] and exits, whether or not a global option would
    have accepted it. *)
Theorem global_options_end_at_the_command_name :
  forall (fuel : nat) (cli : Definition_) (name token : string)
         (rest : list string) (before after : list Command) (c : Command),
    JS.startsWith name "-" = false ->
    cli_cmds cli = before ++ c :: after ->
    Forall (fun c' => cmd_name c' <> name) before ->
    cmd_name c = name ->
    JS.startsWith token "-" = true ->
    token <> "--" ->
    Forall (fun o => Option_canDo o (token :: rest) = JS.Ok false) (cmd_options c) ->
    run (S fuel) cli (name :: token :: rest)
    = Some (fails (UnknownOption token) (World (token :: rest) ∅ [] [])).
Proof.
  intros fuel cli name token rest before after c Hname Hcmds Hbefore Hc
    Htoken Hne Hnone.
  rewrite (process_after_options _ _ runOpt runCmd punctuate (S fuel) cli
             (name :: token :: rest) (World (name :: token :: rest) ∅ [] [])).
  - rewrite (dispatch_known _ _ runOpt runCmd punctuate (S fuel) cli
               (World (name :: token :: rest) ∅ [] []) name (token :: rest)
               before after c eq_refl Hcmds Hbefore Hc).
    unfold Command_doNow.
    rewrite (processOptions_unknown _ _ runOpt punctuate fuel cli (cmd_options c)
               (set_args (token :: rest) (World (name :: token :: rest) ∅ [] []))
               token rest eq_refl Htoken Hne Hnone).
    reflexivity.
  - rewrite processOptions_S. unfold processOptions_cond. cbn [args].
    rewrite Hname. reflexivity.
Qed.

End DispatchMore.

(** ** The further properties at work on the sample host *)

(** X5 on the flag [-v] and the value option [--v]: ["3"] replaces [true]. *)
Lemma later_write_wins_witness :
  exists w1 : world,
    Option_doNow sample_runOpt sample_punctuate (FlagOption ["-v"] "Verbose")
      sample_cli (World ["-v"; "--v=3"] ∅ [] []) = Normal w1 /\
    Option_doNow sample_runOpt sample_punctuate (ValueOption ["--v"] "Level")
      sample_cli w1
    = Normal (World [] (<["v" := VString "3"]> ∅) [] []).
Proof.
  refine (proj1 (later_write_wins SampleOpt SampleCmd sample_runOpt sample_punctuate
                   1 2 "v" [] [] "Verbose" "Level" sample_cli
                   (World ["-v"; "--v=3"] ∅ [] []) "-v" "--v" "3" [] _ _ _)).
  - reflexivity.
  - intros a b Hab. destruct a as [|? [|? [|? [|? a]]]]; discriminate.
  - reflexivity.
Defined.

(** X6 on the tokens [-h run f.txt]. *)
Lemma help_flag_does_not_stop_the_scan_witness :
  processOptions sample_runOpt sample_punctuate 3 sample_cli (cli_options sample_cli)
    (World ["-h"; "run"; "f.txt"] ∅ [] [])
  = processOptions sample_runOpt sample_punctuate 2 sample_cli (cli_options sample_cli)
      (World ["run"; "f.txt"] ∅
         [Render (show_doc sample_punctuate sample_cli) Stdout] [ExitAfterAwait 0]).
Proof.
  refine (help_flag_does_not_stop_the_scan SampleOpt SampleCmd sample_runOpt
            sample_punctuate 2 sample_cli _ (World ["-h"; "run"; "f.txt"] ∅ [] [])
            "-h" ["run"; "f.txt"] _ _).
  - reflexivity.
  - left. reflexivity.
Defined.

(** X7 on the tokens [-x --help --foo=1 run -q]. *)
Lemma scan_consumes_a_dashed_prefix_witness :
  exists (consumed : list string) (added : list event),
    ["-x"; "--help"; "--foo=1"; "run"; "-q"] = consumed ++ ["run"; "-q"] /\
    Forall (fun t => JS.startsWith t "-" = true) consumed /\
    (forall k : string,
        is_Some ((∅ : gmap string value) !! k) ->
        is_Some ((<["foo" := VString "1"]> (<["x" := VBool true]> ∅)
                  : gmap string value) !! k)) /\
    [Render (show_doc sample_punctuate sample_cli_tame) Stdout] = [] ++ added /\
    Forall (fun e => e = Render (show_doc sample_punctuate sample_cli_tame) Stdout) added.
Proof.
  refine (scan_consumes_a_dashed_prefix SampleOpt SampleCmd sample_runOpt
            sample_punctuate sample_cli_tame
            [ helpFlag; FlagOption ["-x"; "--extra"] "Extra output";
              ValueOption ["--foo"] "The foo" ] _ 5
            (World ["-x"; "--help"; "--foo=1"; "run"; "-q"] ∅ [] [])
            (World ["run"; "-q"]
               (<["foo" := VString "1"]> (<["x" := VBool true]> ∅))
               [Render (show_doc sample_punctuate sample_cli_tame) Stdout]
               [ExitAfterAwait 0]) _).
  - repeat constructor.
  - reflexivity.
Defined.

(** X8 on the tokens [-x -zz run]. *)
Lemma scan_exits_only_on_an_unknown_option_witness :
  -1 = -1 /\
  exists (token : string) (rest : list string) (before : list event),
    ["-zz"; "run"] = token :: rest /\
    JS.startsWith token "-" = true /\ token <> "--" /\
    Forall (fun o => Option_canDo o (token :: rest) = JS.Ok false)
      [ helpFlag; FlagOption (OptCallback := SampleOpt) ["-x"; "--extra"] "Extra output";
        ValueOption ["--foo"] "The foo" ] /\
    [ConsoleLog "Error: Invalid option -zz"]
    = before ++ [ConsoleLog ("Error: Invalid option " +:+ token)].
Proof.
  refine (scan_exits_only_on_an_unknown_option SampleOpt SampleCmd sample_runOpt
            sample_punctuate sample_cli_tame
            [ helpFlag; FlagOption ["-x"; "--extra"] "Extra output";
              ValueOption ["--foo"] "The foo" ] _ 5
            (World ["-x"; "-zz"; "run"] ∅ [] [])
            (World ["-zz"; "run"] (<["x" := VBool true]> ∅)
               [ConsoleLog "Error: Invalid option -zz"] []) (-1) _).
  - repeat constructor.
  - reflexivity.
Defined.

(** X9 on the tame sample program and three arguments. *)
Lemma process_terminates_when_tame_witness :
  exists o : outcome,
    process sample_runOpt sample_runCmd sample_punctuate 4 sample_cli_tame
      ["-x"; "run"; "f.txt"] = Some o.
Proof.
  apply (process_terminates_when_tame SampleOpt SampleCmd sample_runOpt sample_runCmd
           sample_punctuate sample_cli_tame ["-x"; "run"; "f.txt"] 4%nat).
  - constructor; [exact I|]. constructor; [exact I|]. constructor; [exact I|].
    constructor; [|constructor].
    intros cli w w' H. injection H as <-. apply Nat.le_refl.
  - constructor; [constructor|].
    constructor; [constructor; [exact I | constructor] | constructor].
  - simpl. lia.
Defined.

(** X10 on the sample program: the return comes from the callback of [run]. *)
Lemma process_returns_only_through_a_command_witness :
  exists (c : Command SampleOpt SampleCmd) (value : option string) (w1 : world),
    In c (cli_cmds sample_cli) /\
    CmdAction_call sample_runCmd sample_punctuate (cmd_action c) sample_cli value w1
    = Normal (World ["f.txt"] (<["x" := VBool true]> ∅) [ConsoleLog "f.txt"] []) /\
    match value with
    | None => args w1 = [] /\ sv_optional (cmd_showValue c) = true
    | Some v => args w1 = [v]
    end.
Proof.
  refine (process_returns_only_through_a_command SampleOpt SampleCmd sample_runOpt
            sample_runCmd sample_punctuate 5 sample_cli ["-x"; "run"; "f.txt"]
            (World ["f.txt"] (<["x" := VBool true]> ∅) [ConsoleLog "f.txt"] []) _).
  reflexivity.
Defined.

(** X11 on the sample program: behind [--] the flag [-x] is no option. *)
Lemma leading_terminator_skips_global_options_witness :
  process sample_runOpt sample_runCmd sample_punctuate 1 sample_cli ["--"; "-x"; "run"]
  = Some (Exited (-1)
            (World ["-x"; "run"] ∅ [ConsoleLog "Error: Invalid command -x"] [])).
Proof.
  refine (proj2 (proj2 (leading_terminator_skips_global_options SampleOpt SampleCmd
                          sample_runOpt sample_runCmd sample_punctuate 0 sample_cli))
            "-x" ["run"] _).
  constructor; [discriminate|]. constructor; [discriminate | constructor].
Defined.

(** X12 on the command [run] and the tokens [-- -q]. *)
Lemma terminator_passes_any_value_witness :
  Command_doNow sample_runOpt sample_runCmd sample_punctuate 1
    sample_run
    sample_cli (World ["--"; "-q"] ∅ [] [])
  = Some (Normal (World ["-q"] ∅ [ConsoleLog "-q"] [])).
Proof.
  refine (terminator_passes_any_value SampleOpt SampleCmd sample_runOpt sample_runCmd
            sample_punctuate 0 _ sample_cli (World ["--"; "-q"] ∅ [] []) "-q" _).
  reflexivity.
Defined.

(** X13 on the command [run] and the tokens [f.txt -q]. *)
Lemma value_must_come_last_witness :
  Command_doNow sample_runOpt sample_runCmd sample_punctuate 1
    sample_run
    sample_cli (World ["f.txt"; "-q"] ∅ [] [])
  = Some (Exited (-1)
            (World ["f.txt"; "-q"] ∅
               [ConsoleLog "Error: Too many arguments f.txt,-q"] [])).
Proof.
  refine (value_must_come_last SampleOpt SampleCmd sample_runOpt sample_runCmd
            sample_punctuate 0 _ sample_cli (World ["f.txt"; "-q"] ∅ [] [])
            "f.txt" "-q" [] _ _); reflexivity.
Defined.

(** X14 on the sample program: [help run] renders the usage block of [run]. *)
Lemma help_command_renders_and_returns_witness :
  process sample_runOpt sample_runCmd sample_punctuate 1 sample_cli_tame ["help"; "run"]
  = Some (Normal
            (World ["run"] ∅
               [Render
                  (Command_show sample_punctuate
                     sample_run) Stdout] [])).
Proof.
  refine (proj2 (help_command_renders_and_returns SampleOpt SampleCmd sample_runOpt
                   sample_runCmd sample_punctuate 0 "sample" "A sample program"
                   (cli_options sample_cli_tame)
                   [sample_run])
            "run" [helpCmd] [] _ _ _ _ _).
  - reflexivity.
  - constructor; [discriminate | constructor].
  - reflexivity.
  - reflexivity.
Defined.

(** X15 on the sample program, whose callbacks never throw. *)
Lemma engine_never_throws_by_itself_witness :
  (forall (fuel : nat) (w w' : world),
      processOptions sample_runOpt sample_punctuate fuel sample_cli
        (cli_options sample_cli) w <> Some (Thrown w'))
  /\ (forall (fuel : nat) (Deno_args : list string) (w' : world),
        process sample_runOpt sample_runCmd sample_punctuate fuel sample_cli Deno_args
        <> Some (Thrown w')).
Proof.
  assert (Hopts : Forall (quiet sample_runOpt) (cli_options sample_cli)).
  { constructor; [exact I|]. constructor; [exact I|]. constructor; [exact I|].
    constructor; [|constructor]. intros cli w w'. discriminate. }
  split.
  - apply (proj1 (engine_never_throws_by_itself SampleOpt SampleCmd sample_runOpt
                    sample_runCmd sample_punctuate) sample_cli).
    exact Hopts.
  - apply (proj2 (engine_never_throws_by_itself SampleOpt SampleCmd sample_runOpt
                    sample_runCmd sample_punctuate) sample_cli).
    + exact Hopts.
    + constructor.
      * split; [constructor | exact I].
      * constructor; [|constructor]. split.
        -- constructor; [exact I | constructor].
        -- intros cli value w w'. discriminate.
Defined.

(** X16 on the sample program: [-x] is a global flag, and no option of [run]. *)
Lemma global_options_end_at_the_command_name_witness :
  process sample_runOpt sample_runCmd sample_punctuate 1 sample_cli
    ["run"; "-x"; "f.txt"]
  = Some (Exited (-1)
            (World ["-x"; "f.txt"] ∅ [ConsoleLog "Error: Invalid option -x"] [])).
Proof.
  refine (global_options_end_at_the_command_name SampleOpt SampleCmd sample_runOpt
            sample_runCmd sample_punctuate 0 sample_cli "run" "-x" ["f.txt"]
            [helpCmd] [] _ _ _ _ _ _ _ _).
  - reflexivity.
  - reflexivity.
  - constructor; [discriminate | constructor].
  - reflexivity.
  - reflexivity.
  - discriminate.
  - constructor; [reflexivity | constructor].
Defined.
